(** * whoAMI-scanner: the AMI scan of [main.go], embedded and verified

    The program is one Go function, [main]: it lists the instances of
    every region, looks up the image (AMI) of every instance once, files
    the image in one of four maps and finally prints a summary and writes
    a pipe-delimited report.

    The embedding follows [main.go] block by block.  The AWS SDK is an
    environment of three calls ([DescribeInstances], [DescribeImages],
    [DescribeRegions]) whose results are either an error or the response
    value, with the SDK's own shapes (reservations holding instances, an
    image list).  Go maps are [gmap]s; the program variables of the scan
    are the fields of [State].  Console output carries no state and is
    left out, except for the summary, which is the value [summary]. *)

From Stdlib Require Import Ascii String List.
From stdpp Require Import gmap strings list fin_maps.

Open Scope string_scope.

(** ** Data of [main.go] *)

(** [type AMI struct] (lines 17-25). *)
Record AMI := mkAMI {
  ID : string;
  Region : string;
  OwnerAlias : string;
  OwnerID : string;
  Name : string;
  Description : string;
  Public : string;
}.

(** The fields of [types.Image] that [main] reads.  The string fields are
    pointers in the SDK and are read with [ptr.ToString]; [Public] is
    dereferenced directly, the service always sets it. *)
Record Image := mkImage {
  ImageOwnerAlias : option string;
  OwnerId : option string;
  ImageName : option string;
  ImageDescription : option string;
  ImagePublic : bool;
}.

(** The fields of [types.Instance] that [main] reads, both dereferenced
    directly. *)
Record Instance := mkInstance {
  InstanceId : string;
  ImageId : string;
}.

(** [types.Reservation]: only its [Instances]. *)
Record Reservation := mkReservation {
  Instances : list Instance;
}.

(** The SDK calls.  [None] is a non-nil [err].  The first argument is the
    region the client is configured for, the second the id filter of the
    request ([InstanceIds], [ImageIds]); [main] passes no filter when it
    lists a region and a one-element filter otherwise. *)
Record Env := mkEnv {
  DescribeRegions : option (list string);
  DescribeInstances : string -> list string -> option (list Reservation);
  DescribeImages : string -> list string -> option (list Image);
}.

(** [ptr.ToString]: the pointed string, or the empty string for nil. *)
Definition ToString (p : option string) : string :=
  match p with
  | Some s => s
  | None => ""
  end.

(** The variables of the scan (lines 84-89).  [resolved] is not a program
    variable: it logs the [DescribeImages] calls, newest last, as
    (region, image id).  Each call is followed by the one handling of its
    response (lines 149-210), so the log also counts how often an image
    is classified. *)
Record State := mkState {
  processedAMIs : gmap string bool;
  verifiedAMIs : gmap string AMI;
  unverifiedAMIs : gmap string AMI;
  unknownAMIs : gmap string AMI;
  privateAMIs : gmap string AMI;
  totalInstances : nat;
  resolved : list (string * string);
}.

Definition initial : State :=
  mkState ∅ ∅ ∅ ∅ ∅ 0 [].

(** [m[k]] on a [map[string]bool]: false when the key is missing. *)
Definition index (m : gmap string bool) (k : string) : bool :=
  match m !! k with
  | Some b => b
  | None => false
  end.

(** The four result maps, named by the status under which the report
    lists their records. *)
Inductive Category := Verified | Private | Unknown | Unverified.

Global Instance Category_eq_dec : EqDecision Category :=
  ltac:(solve_decision).

Definition bucket (c : Category) (st : State) : gmap string AMI :=
  match c with
  | Verified => verifiedAMIs st
  | Private => privateAMIs st
  | Unknown => unknownAMIs st
  | Unverified => unverifiedAMIs st
  end.

(** Assignments to one variable of the scan. *)
Definition markProcessed (amiID : string) (st : State) : State :=
  mkState (<[amiID := true]> (processedAMIs st)) (verifiedAMIs st)
          (unverifiedAMIs st) (unknownAMIs st) (privateAMIs st)
          (totalInstances st) (resolved st).

(** [verifiedAMIs[amiID] = ami] and its three siblings. *)
Definition put (c : Category) (amiID : string) (ami : AMI) (st : State)
  : State :=
  match c with
  | Verified =>
      mkState (processedAMIs st) (<[amiID := ami]> (verifiedAMIs st))
              (unverifiedAMIs st) (unknownAMIs st) (privateAMIs st)
              (totalInstances st) (resolved st)
  | Private =>
      mkState (processedAMIs st) (verifiedAMIs st) (unverifiedAMIs st)
              (unknownAMIs st) (<[amiID := ami]> (privateAMIs st))
              (totalInstances st) (resolved st)
  | Unknown =>
      mkState (processedAMIs st) (verifiedAMIs st) (unverifiedAMIs st)
              (<[amiID := ami]> (unknownAMIs st)) (privateAMIs st)
              (totalInstances st) (resolved st)
  | Unverified =>
      mkState (processedAMIs st) (verifiedAMIs st)
              (<[amiID := ami]> (unverifiedAMIs st)) (unknownAMIs st)
              (privateAMIs st) (totalInstances st) (resolved st)
  end.

Definition addInstances (n : nat) (st : State) : State :=
  mkState (processedAMIs st) (verifiedAMIs st) (unverifiedAMIs st)
          (unknownAMIs st) (privateAMIs st) (totalInstances st + n)
          (resolved st).

Definition logResolve (region amiID : string) (st : State) : State :=
  mkState (processedAMIs st) (verifiedAMIs st) (unverifiedAMIs st)
          (unknownAMIs st) (privateAMIs st) (totalInstances st)
          ((resolved st ++ [(region, amiID)])%list).

(** ** The scan (lines 93-214) *)

(** Lines 171-184: the record built for one image of the response. *)
Definition makeAMI (region amiID : string) (image : Image) : AMI :=
  let publicString := if ImagePublic image then "Public" else "Private" in
  {| ID := amiID;
     Region := region;
     OwnerAlias := ToString (ImageOwnerAlias image);
     OwnerID := ToString (OwnerId image);
     Name := ToString (ImageName image);
     Description := ToString (ImageDescription image);
     Public := publicString |}.

(** Line 197, [ami.OwnerAlias = "self"]. *)
Definition setOwnerAlias (alias : string) (ami : AMI) : AMI :=
  {| ID := ID ami; Region := Region ami; OwnerAlias := alias;
     OwnerID := OwnerID ami; Name := Name ami;
     Description := Description ami; Public := Public ami |}.

(** Lines 169-210, the body of the loop over [imageOutput.Images]. *)
Definition fileImage (region amiID : string) (st : State) (image : Image)
  : State :=
  let ami := makeAMI region amiID image in
  if ImagePublic image then
    if negb (String.eqb (OwnerAlias ami) "") then
      if String.eqb (OwnerAlias ami) "amazon" then
        put Verified amiID ami st
      else if String.eqb (OwnerAlias ami) "self" then
        put Private amiID (setOwnerAlias "self" ami) st
      else
        st
    else
      put Unverified amiID ami st
  else
    put Private amiID ami st.

(** Lines 157-165: the record of an image that no longer resolves. *)
Definition unknownAMI (region amiID : string) : AMI :=
  {| ID := amiID;
     Region := region;
     OwnerAlias := "Unknown";
     OwnerID := "Unknown";
     Name := "Unknown";
     Description := "Unknown";
     Public := "Unknown" |}.

(** Lines 149-210: what is done with the result of [DescribeImages]. *)
Definition fileResponse (region amiID : string)
    (response : option (list Image)) (st : State) : State :=
  match response with
  | None => st
  | Some images =>
      if Nat.eqb (length images) 0 then
        put Unknown amiID (unknownAMI region amiID) st
      else
        foldl (fileImage region amiID) st images
  end.

(** Lines 131-210, the body of the loop over the instances of an instance
    detail response. *)
Definition analyseAMI (env : Env) (region : string) (st : State)
    (amiID : string) : State :=
  if index (processedAMIs st) amiID then st
  else
    let st := markProcessed amiID st in
    let st := logResolve region amiID st in
    fileResponse region amiID (DescribeImages env region [amiID]) st.

(** Lines 129-212: the two loops over an instance detail response. *)
Definition analyseReservations (env : Env) (region : string) (st : State)
    (reservations : list Reservation) : State :=
  foldl (fun st reservation =>
           foldl (fun st instance => analyseAMI env region st (ImageId instance))
                 st (Instances reservation))
        st reservations.

(** Lines 119-213, the body of the loop over [instanceIDs]. *)
Definition analyseInstance (env : Env) (region : string) (st : State)
    (instanceID : string) : State :=
  match DescribeInstances env region [instanceID] with
  | None => st
  | Some reservations => analyseReservations env region st reservations
  end.

(** Lines 107-112. *)
Definition collectInstanceIDs (reservations : list Reservation)
  : list string :=
  foldl (fun (ids : list string) reservation =>
           foldl (fun (ids : list string) instance =>
                    (ids ++ [InstanceId instance])%list)
                 ids (Instances reservation))
        [] reservations.

(** Lines 93-214, the body of the loop over [regions]. *)
Definition scanRegion (env : Env) (st : State) (region : string) : State :=
  match DescribeInstances env region [] with
  | None => st
  | Some reservations =>
      let instanceIDs := collectInstanceIDs reservations in
      let st := addInstances (length instanceIDs) st in
      if Nat.eqb (length instanceIDs) 0 then st
      else foldl (analyseInstance env region) st instanceIDs
  end.

(** Lines 84-214. *)
Definition scan (env : Env) (regions : list string) : State :=
  foldl (scanRegion env) initial regions.

(** ** The summary (lines 233-239) *)

(** The six numbers of the summary, in the order they are printed. *)
Record Summary := mkSummary {
  TotalInstances : nat;
  TotalAMIs : nat;
  PrivateAMIs : nat;
  VerifiedAMIs : nat;
  UnknownAMIs : nat;
  UnverifiedAMIs : nat;
}.

Definition summary (st : State) : Summary :=
  {| TotalInstances := totalInstances st;
     TotalAMIs := size (processedAMIs st);
     PrivateAMIs := size (privateAMIs st);
     VerifiedAMIs := size (verifiedAMIs st);
     UnknownAMIs := size (unknownAMIs st);
     UnverifiedAMIs := size (unverifiedAMIs st) |}.

(** Lines 69-82: the regions to scan, from the [-region] flag. *)
Definition fetchRegions (env : Env) (region : string)
  : option (list string) :=
  if String.eqb region "" then DescribeRegions env else Some [region].

(** Lines 29-239 for a session whose configuration and caller identity
    loaded: [None] is [os.Exit(1)], otherwise the final state of the scan
    and the summary that is printed from it. *)
Definition run (env : Env) (region : string) : option (State * Summary) :=
  match fetchRegions env region with
  | None => None
  | Some regions =>
      let st := scan env regions in
      Some (st, summary st)
  end.

(** ** The report (lines 250-262) *)

Definition nl : string := String "010"%char EmptyString.

Definition headerLine : string :=
  "AMI ID|Region|whoAMI status|Public|Owner Alias|Owner ID|Name|Description".

Definition header : string := headerLine ++ nl.

(** The format of lines 252, 255 and 261, ["%s|%s|<status>|%s|%s|%s|%s|%s"],
    without its final newline. *)
Definition detailLine (status : string) (ami : AMI) : string :=
  ID ami ++ "|" ++ Region ami ++ "|" ++ status ++ "|" ++ Public ami ++ "|"
  ++ OwnerAlias ami ++ "|" ++ OwnerID ami ++ "|" ++ Name ami ++ "|"
  ++ Description ami.

(** The format of line 258, without its final newline. *)
Definition unknownLine (ami : AMI) : string :=
  ID ami ++ "|" ++ Region ami ++ "|Unknown|Unknown|Unknown|Unknown|Unknown".

(** The line written for a record of each map. *)
Definition line (c : Category) (ami : AMI) : string :=
  match c with
  | Verified => detailLine "Verified" ami
  | Private => detailLine "Private" ami
  | Unknown => unknownLine ami
  | Unverified => detailLine "Unverified" ami
  end.

Definition row (c : Category) (ami : AMI) : string := line c ami ++ nl.

(** The strings handed to [file.WriteString], in order, when the four
    [range] loops visit the entries of the maps in the given orders. *)
Definition writeReport (verified private unknown unverified : list (string * AMI))
  : list string :=
  (header
   :: map (fun kv => row Verified (snd kv)) verified
   ++ map (fun kv => row Private (snd kv)) private
   ++ map (fun kv => row Unknown (snd kv)) unknown
   ++ map (fun kv => row Unverified (snd kv)) unverified)%list.

(** A [range] over a Go map visits every entry once, in an order the
    language leaves unspecified and that may differ from one loop to the
    next: any arrangement of the entries is a possible visit. *)
Definition ranges (m : gmap string AMI) (visit : list (string * AMI)) : Prop :=
  visit ≡ₚ map_to_list m.

(** The chunks that an export of the final state may write. *)
Definition reportChunks (st : State) (chunks : list string) : Prop :=
  ∃ verified private unknown unverified,
    ranges (verifiedAMIs st) verified ∧
    ranges (privateAMIs st) private ∧
    ranges (unknownAMIs st) unknown ∧
    ranges (unverifiedAMIs st) unverified ∧
    chunks = writeReport verified private unknown unverified.



(** The columns of one line of the file. *)
Fixpoint splitOn (sep : ascii) (s : string) : list string :=
  match s with
  | EmptyString => [EmptyString]
  | String c rest =>
      if Ascii.eqb c sep then EmptyString :: splitOn sep rest
      else
        match splitOn sep rest with
        | [] => [String c EmptyString]
        | field :: fields => String c field :: fields
        end
  end.

Definition columns (line : string) : list string := splitOn "|"%char line.

(** The character occurs in the string. *)
Fixpoint contains (c : ascii) (s : string) : bool :=
  match s with
  | EmptyString => false
  | String c' rest => Ascii.eqb c' c || contains c rest
  end.

(** The status literal of the format string of each map. *)
Definition status (c : Category) : string :=
  match c with
  | Verified => "Verified"
  | Private => "Private"
  | Unknown => "Unknown"
  | Unverified => "Unverified"
  end.


(** ** Reading the scan

    Definitions used to state what the scan does; none of them is code
    of [main.go]. *)

(** The branch of lines 186-209 that an image takes: the map it is
    assigned to, or [None] for the branch that assigns to no map. *)
Definition categoryOf (image : Image) : option Category :=
  if ImagePublic image then
    let alias := ToString (ImageOwnerAlias image) in
    if String.eqb alias "" then Some Unverified
    else if String.eqb alias "amazon" then Some Verified
    else if String.eqb alias "self" then Some Private
    else None
  else Some Private.

(** The maps that hold a record under the given image id, in the order
    verified, private, unknown, unverified. *)
Definition categories (st : State) (amiID : string) : list Category :=
  filter (fun c => is_Some (bucket c st !! amiID))
         [Verified; Private; Unknown; Unverified].

(** The image ids of a [DescribeInstances] response, in the order the two
    loops of lines 129-130 meet them. *)
Definition imageIDs (reservations : list Reservation) : list string :=
  flat_map (fun reservation => map ImageId (Instances reservation))
           reservations.

(** The image ids met while the instance [instanceID] of [region] is
    analysed. *)
Definition observedBy (env : Env) (region instanceID : string)
  : list string :=
  match DescribeInstances env region [instanceID] with
  | None => []
  | Some reservations => imageIDs reservations
  end.

(** The image ids met while [region] is scanned, in order. *)
Definition observed (env : Env) (region : string) : list string :=
  match DescribeInstances env region [] with
  | None => []
  | Some reservations =>
      flat_map (observedBy env region) (collectInstanceIDs reservations)
  end.

(** The instances counted for [region] (line 114). *)
Definition listed (env : Env) (region : string) : nat :=
  match DescribeInstances env region [] with
  | None => 0
  | Some reservations => length (collectInstanceIDs reservations)
  end.

(** All (region, image id) observations of a scan, in order. *)
Definition observations (env : Env) (regions : list string)
  : list (string * string) :=
  flat_map (fun region => map (pair region) (observed env region)) regions.

(** One observation handled by lines 131-210. *)
Definition step (env : Env) (st : State) (o : string * string) : State :=
  analyseAMI env (fst o) st (snd o).


(** The states of the scan before and after each raise of the instance
    count (line 114) and each handling of one image id of an instance
    (lines 131-210).  While an id is handled the maps change only by the
    assignments made for its response. *)
Inductive reachable (env : Env) : State -> Prop :=
| reach_initial : reachable env initial
| reach_listed st n :
    reachable env st -> reachable env (addInstances n st)
| reach_analysed st region amiID :
    reachable env st -> reachable env (analyseAMI env region st amiID).

(** Every [DescribeImages] call of the scan was answered with at most one
    image, as the service answers a request for one image id. *)
Definition singleImages (env : Env) (st : State) : bool :=
  forallb (fun o =>
             match DescribeImages env (fst o) [snd o] with
             | Some images => Nat.leb (length images) 1
             | None => true
             end)
          (resolved st).

(** Every instance detail call of the scan was answered with at most one
    instance, as the service answers a request for one instance id. *)
Definition singleInstances (env : Env) (regions : list string) : bool :=
  forallb (fun region =>
             match DescribeInstances env region [] with
             | Some reservations =>
                 forallb (fun instanceID =>
                            Nat.leb (length (observedBy env region instanceID)) 1)
                         (collectInstanceIDs reservations)
             | None => true
             end)
          regions.

(** Every [DescribeImages] call of the scan succeeded and returned only
    images that lines 186-209 assign to a map. *)
Definition allFiled (env : Env) (st : State) : bool :=
  forallb (fun o =>
             match DescribeImages env (fst o) [snd o] with
             | Some images =>
                 forallb (fun image => bool_decide (is_Some (categoryOf image)))
                         images
             | None => false
             end)
          (resolved st).

(** Two states hold the same records under [amiID]. *)
Definition agree (amiID : string) (st1 st2 : State) : Prop :=
  ∀ c, bucket c st1 !! amiID = bucket c st2 !! amiID.


(** ** Two accounts to run the scan on *)

Fixpoint assoc {V} (k : string) (table : list (string * V)) : option V :=
  match table with
  | [] => None
  | (k', v) :: rest => if String.eqb k k' then Some v else assoc k rest
  end.

(** A service that lists the given regions, holds the given instances per
    region (a region without an entry cannot be listed) and answers a
    request for one image id from the table, with the empty list for an
    id that is not in it. *)
Definition serviceOf (regions : list string)
    (instances : list (string * list Instance))
    (images : list (string * option (list Image))) : Env :=
  {| DescribeRegions := Some regions;
     DescribeInstances := fun region ids =>
       match assoc region instances with
       | None => None
       | Some running =>
           match ids with
           | [] => Some [mkReservation running]
           | _ => Some [mkReservation
                          (filter (fun i => InstanceId i ∈ ids) running)]
           end
       end;
     DescribeImages := fun region ids =>
       match ids with
       | [amiID] =>
           match assoc amiID images with
           | Some response => response
           | None => Some []
           end
       | _ => None
       end |}.

(** Two regions with instances and one that cannot be listed; every image
    resolves: two Amazon images, one public image without alias, one
    private image, one image that no longer exists. *)
Definition tidyAccount : Env :=
  serviceOf
    ["eu-west-1"; "us-east-1"; "ap-south-1"]
    [("eu-west-1", [mkInstance "i-1" "ami-1"; mkInstance "i-2" "ami-2"]);
     ("ap-south-1", [mkInstance "i-3" "ami-1"; mkInstance "i-4" "ami-3";
                     mkInstance "i-5" "ami-4"; mkInstance "i-6" "ami-5"])]
    [("ami-1", Some [mkImage (Some "amazon") (Some "137112412989")
                             (Some "al2023") (Some "Amazon Linux") true]);
     ("ami-2", Some [mkImage None (Some "999999999999")
                             (Some "ubuntu") None true]);
     ("ami-3", Some []);
     ("ami-4", Some [mkImage (Some "amazon") (Some "137112412989")
                             (Some "al2") None true]);
     ("ami-5", Some [mkImage None (Some "111122223333")
                             (Some "golden") (Some "in-house") false])].

(** One region; the lookup of [ami-7] fails, [ami-1] is an Amazon
    image. *)
Definition failingAccount : Env :=
  serviceOf
    ["eu-west-1"]
    [("eu-west-1", [mkInstance "i-1" "ami-7"; mkInstance "i-2" "ami-1"])]
    [("ami-7", None);
     ("ami-1", Some [mkImage (Some "amazon") (Some "137112412989")
                             (Some "al2023") (Some "Amazon Linux") true])].

(** One region; [ami-8] is a public image with the alias of a third
    party. *)
Definition thirdPartyAccount : Env :=
  serviceOf
    ["eu-west-1"]
    [("eu-west-1", [mkInstance "i-1" "ami-8"])]
    [("ami-8", Some [mkImage (Some "12345") (Some "444455556666")
                             (Some "base") None true])].

(** One region; the lookup of [ami-9] is answered with two images, an
    Amazon one and a private one, which the service does not do for a
    request that names one image id. *)
Definition twinAccount : Env :=
  serviceOf
    ["eu-west-1"]
    [("eu-west-1", [mkInstance "i-1" "ami-9"])]
    [("ami-9", Some [mkImage (Some "amazon") (Some "137112412989")
                             (Some "al2023") None true;
                     mkImage None (Some "111122223333")
                             (Some "golden") None false])].

(** ** The rest of [main]: flags, session and output file *)

(** The number of [|] in a string. *)
Fixpoint pipes (s : string) : nat :=
  match s with
  | EmptyString => 0
  | String c rest => (if Ascii.eqb c "|" then 1 else 0) + pipes rest
  end.

(** What the map of a category holds in a record of an image id filed
    from a region: the fields that the branch of lines 155-209 leading to
    the map fixes. *)
Definition shape (c : Category) (region amiID : string) (ami : AMI) : Prop :=
  ID ami = amiID ∧ Region ami = region ∧
  match c with
  | Verified => Public ami = "Public" ∧ OwnerAlias ami = "amazon"
  | Unverified => Public ami = "Public" ∧ OwnerAlias ami = ""
  | Unknown => ami = unknownAMI region amiID
  | Private =>
      Public ami = "Private" ∨
      (Public ami = "Public" ∧ OwnerAlias ami = "self")
  end.

(** The command line (lines 31-38). *)
Record Flags := mkFlags {
  flagProfile : string;
  flagRegion : string;
  flagVerbose : bool;
  flagOutput : string;
}.

(** The machine and session [main] runs in: the configuration loader and
    the identity call ([false] is a non-nil [err]), and the path and file
    functions of [path/filepath] and [os] that [PreparePath] and the
    export use ([None] and [false] are a non-nil [err]). *)
Record Host := mkHost {
  LoadDefaultConfig : string -> bool;
  GetCallerIdentity : bool;
  PathSeparator : ascii;
  IsAbs : string -> bool;
  Abs : string -> option string;
  Getwd : option string;
  Join : string -> string -> string;
  Dir : string -> string;
  MkdirAll : string -> bool;
  Create : string -> bool;
}.

(** The three errors of [PreparePath], by the call that failed. *)
Inductive PathError :=
| AbsFailed
| GetwdFailed
| MkdirAllFailed (dir : string).

(** The result pair of [PreparePath]: the full path and a nil error, or
    the empty path and an error. *)
Inductive PathResult :=
| PathOk (fullPath : string)
| PathErr (err : PathError).

(** [PreparePath] (lines 275-304). *)
Definition PreparePath (h : Host) (outputPath : string) : PathResult :=
  let located :=
    if IsAbs h outputPath then PathOk outputPath
    else if contains (PathSeparator h) outputPath then
      match Abs h outputPath with
      | None => PathErr AbsFailed
      | Some absPath => PathOk absPath
      end
    else
      match Getwd h with
      | None => PathErr GetwdFailed
      | Some cwd => PathOk (Join h cwd outputPath)
      end in
  match located with
  | PathErr err => PathErr err
  | PathOk fullPath =>
      let dir := Dir h fullPath in
      if MkdirAll h dir then PathOk fullPath
      else PathErr (MkdirAllFailed dir)
  end.

(** What a run of [main] leaves behind: the exit code, the summary when
    it was printed, the directory that [PreparePath] made sure exists,
    the path the report was created under and the path echoed after
    writing it. *)
Record Outcome := mkOutcome {
  exitCode : nat;
  printed : option Summary;
  preparedDir : option string;
  created : option string;
  echoed : option string;
}.

(** Lines 40-42: [PreparePath] is called for a non-empty [-output] and
    both its results are dropped; what remains is the directory. *)
Definition prepare (h : Host) (output : string) : option string :=
  if String.eqb output "" then None
  else
    match PreparePath h output with
    | PathOk fullPath => Some (Dir h fullPath)
    | PathErr _ => None
    end.

(** Lines 265-270: the path echoed for an output whose first byte is
    [first]; the error of [os.Getwd] is dropped and leaves an empty
    working directory. *)
Definition echoPath (h : Host) (first : ascii) (output : string) : string :=
  if Ascii.eqb first "/" then output
  else
    let wd := match Getwd h with Some wd => wd | None => "" end in
    wd ++ "/" ++ output.

(** [main] (lines 29-272), for a run whose flags parse and whose
    responses carry the fields that the scan dereferences; a run that
    panics or stops in [flag.Parse] has no outcome here. *)
Definition main (h : Host) (env : Env) (flags : Flags) : Outcome :=
  let dir := prepare h (flagOutput flags) in
  if negb (LoadDefaultConfig h (flagProfile flags)) then
    mkOutcome 1 None dir None None
  else if negb (GetCallerIdentity h) then
    mkOutcome 1 None dir None None
  else
    match run env (flagRegion flags) with
    | None => mkOutcome 1 None dir None None
    | Some (st, s) =>
        match flagOutput flags with
        | EmptyString => mkOutcome 0 (Some s) dir None None
        | String first _ =>
            let output := flagOutput flags in
            if Create h output then
              mkOutcome 0 (Some s) dir (Some output)
                        (Some (echoPath h first output))
            else mkOutcome 1 (Some s) dir None None
        end
    end.

(** The text before the last [/] of a path. *)
Fixpoint beforeLastSlash (s : string) : option string :=
  match s with
  | EmptyString => None
  | String c rest =>
      match beforeLastSlash rest with
      | Some d => Some (String c d)
      | None => if Ascii.eqb c "/" then Some EmptyString else None
      end
  end.

(** A Unix host in the working directory [/home/audit] whose session
    loads, whose path functions join and split at [/] without cleaning,
    and on which every directory and file can be created. *)
Definition unixHost : Host :=
  {| LoadDefaultConfig := fun _ => true;
     GetCallerIdentity := true;
     PathSeparator := "/"%char;
     IsAbs := fun path =>
       match path with
       | String c _ => Ascii.eqb c "/"
       | EmptyString => false
       end;
     Abs := fun path => Some ("/home/audit" ++ "/" ++ path);
     Getwd := Some "/home/audit";
     Join := fun dir name => dir ++ "/" ++ name;
     Dir := fun path =>
       match beforeLastSlash path with
       | Some EmptyString => "/"
       | Some d => d
       | None => "."
       end;
     MkdirAll := fun _ => true;
     Create := fun _ => true |}.

(** One region; [ami-6] is a public image of the scanning account itself,
    used by two instances. *)
Definition ownAccount : Env :=
  serviceOf
    ["eu-west-1"]
    [("eu-west-1", [mkInstance "i-1" "ami-6"; mkInstance "i-2" "ami-6"])]
    [("ami-6", Some [mkImage (Some "self") (Some "111122223333")
                             (Some "shared-base") None true])].

(** The same host with a disk on which no file can be created. *)
Definition fullDiskHost : Host :=
  {| LoadDefaultConfig := LoadDefaultConfig unixHost;
     GetCallerIdentity := GetCallerIdentity unixHost;
     PathSeparator := PathSeparator unixHost;
     IsAbs := IsAbs unixHost;
     Abs := Abs unixHost;
     Getwd := Getwd unixHost;
     Join := Join unixHost;
     Dir := Dir unixHost;
     MkdirAll := MkdirAll unixHost;
     Create := fun _ => false |}.

(** The same host without credentials: the identity call fails. *)
Definition anonymousHost : Host :=
  {| LoadDefaultConfig := LoadDefaultConfig unixHost;
     GetCallerIdentity := false;
     PathSeparator := PathSeparator unixHost;
     IsAbs := IsAbs unixHost;
     Abs := Abs unixHost;
     Getwd := Getwd unixHost;
     Join := Join unixHost;
     Dir := Dir unixHost;
     MkdirAll := MkdirAll unixHost;
     Create := Create unixHost |}.

(** The invariant of the scan: the dedup map and the call log agree, no
    id was resolved twice, an id that was not resolved is in no map, and
    the maps hold under a resolved id what its response files from
    scratch. *)
Record Inv (env : Env) (st : State) : Prop := mkInv {
  inv_processed : ∀ amiID,
    processedAMIs st !! amiID =
      if decide (amiID ∈ (resolved st).*2) then Some true else None;
  inv_nodup : NoDup (resolved st).*2;
  inv_unseen : ∀ amiID c,
    amiID ∉ (resolved st).*2 → bucket c st !! amiID = None;
  inv_filed : ∀ region amiID c,
    (region, amiID) ∈ resolved st →
    bucket c st !! amiID =
      bucket c (fileResponse region amiID
                  (DescribeImages env region [amiID]) initial) !! amiID;
}.

(** ** Frame lemmas *)

Lemma bucket_put c c' amiID ami st :
  bucket c' (put c amiID ami st) =
    if decide (c = c') then <[amiID := ami]> (bucket c' st) else bucket c' st.
Proof. by destruct c, c'. Qed.

Lemma bucket_put_lookup c c' amiID amiID' ami st :
  bucket c' (put c amiID ami st) !! amiID' =
    if decide (c = c' ∧ amiID = amiID') then Some ami
    else bucket c' st !! amiID'.
Proof.
  rewrite bucket_put. destruct (decide (c = c')) as [->|Hc].
  - rewrite lookup_insert. destruct (decide (amiID = amiID')) as [->|Hne].
    + by rewrite decide_True.
    + rewrite decide_False; [done | tauto].
  - rewrite decide_False; [done | tauto].
Qed.

Lemma put_fields c amiID ami st :
  processedAMIs (put c amiID ami st) = processedAMIs st ∧
  totalInstances (put c amiID ami st) = totalInstances st ∧
  resolved (put c amiID ami st) = resolved st.
Proof. by destruct c. Qed.

Lemma setOwnerAlias_id ami :
  setOwnerAlias (OwnerAlias ami) ami = ami.
Proof. by destruct ami. Qed.

(** The loop body as its decision followed by one assignment. *)
Lemma fileImage_categoryOf region amiID st image :
  fileImage region amiID st image =
    match categoryOf image with
    | Some c => put c amiID (makeAMI region amiID image) st
    | None => st
    end.
Proof.
  unfold fileImage, categoryOf. cbn [OwnerAlias makeAMI].
  destruct (ImagePublic image); [|done].
  destruct (String.eqb_spec (ToString (ImageOwnerAlias image)) "") as [->|_];
    [done|]. cbn [negb].
  destruct (String.eqb_spec (ToString (ImageOwnerAlias image)) "amazon");
    [done|].
  destruct (String.eqb_spec (ToString (ImageOwnerAlias image)) "self")
    as [Hself|_]; [|done].
  f_equal. rewrite <- (setOwnerAlias_id (makeAMI region amiID image)) at 2.
  cbn [OwnerAlias makeAMI]. by rewrite Hself.
Qed.

Lemma foldl_preserves {A B} (P : A -> Prop) (f : A -> B -> A) l a :
  (∀ a b, P a → P (f a b)) → P a → P (foldl f a l).
Proof.
  intros Hf. revert a. induction l as [|b l IH]; intros a Ha; [done|].
  cbn. apply IH, Hf, Ha.
Qed.

Lemma fileImage_fields region amiID st image :
  processedAMIs (fileImage region amiID st image) = processedAMIs st ∧
  totalInstances (fileImage region amiID st image) = totalInstances st ∧
  resolved (fileImage region amiID st image) = resolved st.
Proof.
  rewrite fileImage_categoryOf. destruct (categoryOf image); [|done].
  apply put_fields.
Qed.

Lemma fileImage_other region amiID amiID' c st image :
  amiID ≠ amiID' →
  bucket c (fileImage region amiID st image) !! amiID' = bucket c st !! amiID'.
Proof.
  intros Hne. rewrite fileImage_categoryOf.
  destruct (categoryOf image); [|done].
  rewrite bucket_put_lookup, decide_False; [done | tauto].
Qed.

Lemma fileImage_agree region amiID st1 st2 image :
  agree amiID st1 st2 →
  agree amiID (fileImage region amiID st1 image)
              (fileImage region amiID st2 image).
Proof.
  intros Hag c. rewrite !fileImage_categoryOf.
  destruct (categoryOf image); [|apply Hag].
  rewrite !bucket_put_lookup. case_decide; [done | apply Hag].
Qed.

Lemma fileImages_fields region amiID images st :
  processedAMIs (foldl (fileImage region amiID) st images) = processedAMIs st ∧
  totalInstances (foldl (fileImage region amiID) st images) = totalInstances st ∧
  resolved (foldl (fileImage region amiID) st images) = resolved st.
Proof.
  apply (foldl_preserves
           (fun s => processedAMIs s = processedAMIs st ∧
                     totalInstances s = totalInstances st ∧
                     resolved s = resolved st)); [|done].
  intros s image (H1 & H2 & H3).
  destruct (fileImage_fields region amiID s image) as (-> & -> & ->).
  done.
Qed.

Lemma fileImages_other region amiID amiID' c images st :
  amiID ≠ amiID' →
  bucket c (foldl (fileImage region amiID) st images) !! amiID'
  = bucket c st !! amiID'.
Proof.
  intros Hne.
  apply (foldl_preserves
           (fun s => bucket c s !! amiID' = bucket c st !! amiID')); [|done].
  intros s image <-. by apply fileImage_other.
Qed.

Lemma fileImages_agree region amiID images st1 st2 :
  agree amiID st1 st2 →
  agree amiID (foldl (fileImage region amiID) st1 images)
              (foldl (fileImage region amiID) st2 images).
Proof.
  revert st1 st2. induction images as [|image images IH]; intros st1 st2 Hag;
    [done|].
  cbn. by apply IH, fileImage_agree.
Qed.

Lemma fileResponse_fields region amiID response st :
  processedAMIs (fileResponse region amiID response st) = processedAMIs st ∧
  totalInstances (fileResponse region amiID response st) = totalInstances st ∧
  resolved (fileResponse region amiID response st) = resolved st.
Proof.
  destruct response as [images|]; [|done]. unfold fileResponse.
  destruct (length images =? 0)%nat.
  - apply put_fields.
  - apply fileImages_fields.
Qed.

Lemma fileResponse_other region amiID amiID' c response st :
  amiID ≠ amiID' →
  bucket c (fileResponse region amiID response st) !! amiID'
  = bucket c st !! amiID'.
Proof.
  intros Hne. destruct response as [images|]; [|done]. unfold fileResponse.
  destruct (length images =? 0)%nat.
  - rewrite bucket_put_lookup, decide_False; [done | tauto].
  - by apply fileImages_other.
Qed.

Lemma fileResponse_agree region amiID response st1 st2 :
  agree amiID st1 st2 →
  agree amiID (fileResponse region amiID response st1)
              (fileResponse region amiID response st2).
Proof.
  intros Hag. destruct response as [images|]; [|done]. unfold fileResponse.
  destruct (length images =? 0)%nat.
  - intros c. rewrite !bucket_put_lookup. case_decide; [done | apply Hag].
  - by apply fileImages_agree.
Qed.

(** ** One image id *)

Lemma analyseAMI_seen env region st amiID :
  index (processedAMIs st) amiID = true →
  analyseAMI env region st amiID = st.
Proof. intros H. unfold analyseAMI. by rewrite H. Qed.

Lemma analyseAMI_new env region st amiID :
  index (processedAMIs st) amiID = false →
  analyseAMI env region st amiID =
    fileResponse region amiID (DescribeImages env region [amiID])
      (logResolve region amiID (markProcessed amiID st)).
Proof. intros H. unfold analyseAMI. by rewrite H. Qed.

Lemma analyseAMI_total env region st amiID :
  totalInstances (analyseAMI env region st amiID) = totalInstances st.
Proof.
  unfold analyseAMI. destruct (index _ _); [done|].
  by destruct (fileResponse_fields region amiID
                 (DescribeImages env region [amiID])
                 (logResolve region amiID (markProcessed amiID st)))
    as (_ & -> & _).
Qed.

Lemma index_false_unresolved env st amiID :
  Inv env st →
  index (processedAMIs st) amiID = false → amiID ∉ (resolved st).*2.
Proof.
  intros HI. unfold index. rewrite (inv_processed _ _ HI).
  by case_decide.
Qed.

Lemma index_true_resolved env st amiID :
  Inv env st →
  index (processedAMIs st) amiID = true ↔ amiID ∈ (resolved st).*2.
Proof.
  intros HI. unfold index. rewrite (inv_processed _ _ HI).
  case_decide; naive_solver.
Qed.

Lemma Inv_initial env : Inv env initial.
Proof.
  split; cbn.
  - intros amiID. rewrite lookup_empty. rewrite decide_False; [done|].
    apply not_elem_of_nil.
  - constructor.
  - intros amiID c _. destruct c; apply lookup_empty.
  - intros region amiID c H. by apply elem_of_nil in H.
Qed.

Lemma Inv_addInstances env st n : Inv env st → Inv env (addInstances n st).
Proof.
  intros [H1 H2 H3 H4]. split; [done|done| |].
  - intros amiID c Hx. specialize (H3 amiID c Hx). by destruct c.
  - intros region amiID c Hx. specialize (H4 region amiID c Hx).
    by destruct c.
Qed.

Lemma Inv_analyseAMI env st region amiID :
  Inv env st → Inv env (analyseAMI env region st amiID).
Proof.
  intros HI.
  destruct (index (processedAMIs st) amiID) eqn:Hidx.
  { by rewrite analyseAMI_seen. }
  rewrite analyseAMI_new by done.
  pose proof (index_false_unresolved _ _ _ HI Hidx) as Hfresh.
  set (st' := logResolve region amiID (markProcessed amiID st)).
  set (response := DescribeImages env region [amiID]).
  destruct (fileResponse_fields region amiID response st') as (Hp & _ & Hr).
  assert (Hids : (resolved st').*2 = ((resolved st).*2 ++ [amiID])%list).
  { unfold st'. cbn. by rewrite fmap_app. }
  split.
  - intros x. rewrite Hp, Hr, Hids. unfold st'. cbn.
    destruct (decide (amiID = x)) as [<-|Hne].
    + rewrite lookup_insert_eq, decide_True; [done|].
      apply elem_of_app. right. apply list_elem_of_singleton. done.
    + rewrite lookup_insert_ne by done. rewrite (inv_processed _ _ HI).
      destruct (decide (x ∈ (resolved st).*2)) as [Hin|Hnin].
      * rewrite decide_True; [done|]. apply elem_of_app. by left.
      * rewrite decide_False; [done|]. rewrite elem_of_app.
        intros [?|Hx]; [done|]. apply list_elem_of_singleton in Hx. done.
  - rewrite Hr, Hids. apply NoDup_app. split; [apply (inv_nodup _ _ HI)|].
    split; [|apply NoDup_singleton].
    intros x Hx Hx'. apply list_elem_of_singleton in Hx'. by subst.
  - intros x c. rewrite Hr, Hids. rewrite elem_of_app.
    intros Hx.
    assert (amiID ≠ x).
    { intros ->. apply Hx. right. by apply list_elem_of_singleton. }
    rewrite fileResponse_other by done.
    transitivity (bucket c st !! x); [by destruct c|].
    apply (inv_unseen _ _ HI). tauto.
  - intros r x c. rewrite Hr. unfold st' at 1. cbn.
    rewrite elem_of_app. intros [Hin|Hlast].
    + assert (amiID ≠ x).
      { intros ->. apply Hfresh. apply list_elem_of_fmap.
        by exists (r, x). }
      rewrite fileResponse_other by done.
      transitivity (bucket c st !! x); [by destruct c|].
      by apply (inv_filed _ _ HI).
    + apply list_elem_of_singleton in Hlast. injection Hlast as -> ->.
      apply fileResponse_agree. intros c'.
      transitivity (bucket c' st !! amiID); [by destruct c'|].
      rewrite (inv_unseen _ _ HI) by done.
      destruct c'; symmetry; apply lookup_empty.
Qed.

Lemma reachable_Inv env st : reachable env st → Inv env st.
Proof.
  induction 1.
  - apply Inv_initial.
  - by apply Inv_addInstances.
  - by apply Inv_analyseAMI.
Qed.

(** ** The loops as one fold over the observations *)

Lemma analyseReservations_imageIDs env region reservations st :
  analyseReservations env region st reservations =
    foldl (analyseAMI env region) st (imageIDs reservations).
Proof.
  unfold analyseReservations, imageIDs.
  revert st. induction reservations as [|res rs IH]; intros st; [done|].
  cbn [foldl flat_map]. rewrite foldl_app, IH. f_equal.
  generalize (Instances res). intros l. revert st.
  induction l as [|i l IHl]; intros st; [done|]. cbn. apply IHl.
Qed.

Lemma analyseInstance_observedBy env region st instanceID :
  analyseInstance env region st instanceID =
    foldl (analyseAMI env region) st (observedBy env region instanceID).
Proof.
  unfold analyseInstance, observedBy.
  destruct (DescribeInstances env region [instanceID]); [|done].
  apply analyseReservations_imageIDs.
Qed.

Lemma analyseInstances_flat env region instanceIDs st :
  foldl (analyseInstance env region) st instanceIDs =
    foldl (analyseAMI env region) st
          (flat_map (observedBy env region) instanceIDs).
Proof.
  revert st. induction instanceIDs as [|i l IH]; intros st; [done|].
  cbn [foldl flat_map]. by rewrite foldl_app, IH, analyseInstance_observedBy.
Qed.

Lemma scanRegion_failed env st region :
  DescribeInstances env region [] = None → scanRegion env st region = st.
Proof. intros H. unfold scanRegion. by rewrite H. Qed.

Lemma scanRegion_listed env st region reservations :
  DescribeInstances env region [] = Some reservations →
  scanRegion env st region =
    foldl (analyseAMI env region) (addInstances (listed env region) st)
          (observed env region).
Proof.
  intros H. unfold scanRegion, listed, observed. rewrite H.
  destruct (collectInstanceIDs reservations) as [|i l] eqn:Hids; [done|].
  cbn [length Nat.eqb]. apply analyseInstances_flat.
Qed.

Lemma steps_pairs env region amiIDs st :
  foldl (step env) st (map (pair region) amiIDs) =
    foldl (analyseAMI env region) st amiIDs.
Proof.
  revert st. induction amiIDs as [|a l IH]; intros st; [done|].
  cbn. apply IH.
Qed.

Lemma addInstances_0 st : addInstances 0 st = st.
Proof. destruct st. unfold addInstances. cbn. f_equal. lia. Qed.

Lemma addInstances_add n m st :
  addInstances n (addInstances m st) = addInstances (m + n) st.
Proof. unfold addInstances. cbn. f_equal. lia. Qed.

Lemma put_addInstances c amiID ami n st :
  put c amiID ami (addInstances n st) = addInstances n (put c amiID ami st).
Proof. by destruct c. Qed.

Lemma fileImage_addInstances region amiID n st image :
  fileImage region amiID (addInstances n st) image =
    addInstances n (fileImage region amiID st image).
Proof.
  rewrite !fileImage_categoryOf. destruct (categoryOf image); [|done].
  apply put_addInstances.
Qed.

Lemma fileResponse_addInstances region amiID response n st :
  fileResponse region amiID response (addInstances n st) =
    addInstances n (fileResponse region amiID response st).
Proof.
  destruct response as [images|]; [|done]. unfold fileResponse.
  destruct (length images =? 0)%nat; [apply put_addInstances|].
  revert st. induction images as [|image images IH]; intros st; [done|].
  cbn [foldl]. by rewrite fileImage_addInstances, IH.
Qed.

Lemma analyseAMI_addInstances env region amiID n st :
  analyseAMI env region (addInstances n st) amiID =
    addInstances n (analyseAMI env region st amiID).
Proof.
  unfold analyseAMI. cbn [processedAMIs addInstances].
  destruct (index (processedAMIs st) amiID); [done|].
  by rewrite <- fileResponse_addInstances.
Qed.

Lemma steps_addInstances env obs n st :
  foldl (step env) (addInstances n st) obs =
    addInstances n (foldl (step env) st obs).
Proof.
  revert st. induction obs as [|o obs IH]; intros st; [done|].
  cbn [foldl]. unfold step at 2 4. by rewrite analyseAMI_addInstances, IH.
Qed.

Lemma scanRegion_step env st region :
  scanRegion env st region =
    addInstances (listed env region)
      (foldl (step env) st (map (pair region) (observed env region))).
Proof.
  destruct (DescribeInstances env region []) as [rs|] eqn:H.
  - rewrite (scanRegion_listed _ _ _ _ H), <- steps_addInstances.
    by rewrite steps_pairs.
  - rewrite (scanRegion_failed _ _ _ H). unfold listed, observed.
    rewrite H. cbn. by rewrite addInstances_0.
Qed.

Lemma scanRegions_flat env regions st :
  foldl (scanRegion env) st regions =
    addInstances (sum_list (map (listed env) regions))
      (foldl (step env) st (observations env regions)).
Proof.
  revert st. induction regions as [|r rs IH]; intros st.
  - cbn. by rewrite addInstances_0.
  - cbn [foldl map sum_list]. unfold observations. cbn [flat_map].
    fold (observations env rs).
    rewrite IH, scanRegion_step, steps_addInstances, addInstances_add.
    by rewrite foldl_app.
Qed.

Lemma scan_flat env regions :
  scan env regions =
    addInstances (sum_list (map (listed env) regions))
      (foldl (step env) initial (observations env regions)).
Proof. apply scanRegions_flat. Qed.

Lemma steps_reachable env obs st :
  reachable env st → reachable env (foldl (step env) st obs).
Proof.
  apply foldl_preserves. intros s [r a] Hs. by apply reach_analysed.
Qed.

Lemma scan_reachable env regions : reachable env (scan env regions).
Proof.
  rewrite scan_flat. apply reach_listed, steps_reachable, reach_initial.
Qed.

Lemma scan_Inv env regions : Inv env (scan env regions).
Proof. apply reachable_Inv, scan_reachable. Qed.

(** ** Which observation is resolved *)



Lemma bucket_addInstances c n st : bucket c (addInstances n st) = bucket c st.
Proof. by destruct c. Qed.


Lemma pairs_snd (region : string) (amiIDs : list string) :
  (map (pair region) amiIDs).*2 = amiIDs.
Proof.
  induction amiIDs as [|a l IH]; [done|]. cbn. by rewrite IH.
Qed.


(** ** The record filed for an image id *)


Lemma bucket_initial c amiID : bucket c initial !! amiID = None.
Proof. destruct c; apply lookup_empty. Qed.

(** What the maps hold under an id, read off the invariant. *)
Lemma Inv_lookup env st c amiID ami :
  Inv env st →
  bucket c st !! amiID = Some ami →
  ∃ region, (region, amiID) ∈ resolved st ∧
    bucket c (fileResponse region amiID
                (DescribeImages env region [amiID]) initial) !! amiID
    = Some ami.
Proof.
  intros HI Hc.
  destruct (decide (amiID ∈ (resolved st).*2)) as [Hin|Hnin].
  - apply list_elem_of_fmap in Hin as ([r a] & Ha & Hin). cbn in Ha. subst a.
    exists r. split; [done|]. by rewrite <- (inv_filed _ _ HI).
  - by rewrite (inv_unseen _ _ HI) in Hc.
Qed.

(** ** The maps that hold an id *)

Lemma categories_elem st amiID c :
  c ∈ categories st amiID ↔ is_Some (bucket c st !! amiID).
Proof.
  unfold categories. rewrite list_elem_of_filter. split; [tauto|].
  intros H. split; [done|]. destruct c; set_solver.
Qed.

Lemma categories_agree amiID st1 st2 :
  agree amiID st1 st2 → categories st1 amiID = categories st2 amiID.
Proof.
  intros H. unfold categories. apply list_filter_iff. intros c.
  by rewrite (H c).
Qed.

Lemma categories_none st amiID :
  (∀ c, bucket c st !! amiID = None) → categories st amiID = [].
Proof.
  intros H. unfold categories. rewrite !filter_cons, filter_nil.
  rewrite !H. done.
Qed.

Lemma categories_only st amiID c ami :
  (∀ c', bucket c' st !! amiID = if decide (c' = c) then Some ami else None) →
  categories st amiID = [c].
Proof.
  intros H. unfold categories. rewrite !filter_cons, filter_nil.
  rewrite !H. by destruct c.
Qed.

(** What a response with at most one image files from scratch. *)
Lemma fileResponse_initial region amiID response c :
  bucket c (fileResponse region amiID response initial) !! amiID =
    match response with
    | None => None
    | Some [] =>
        if decide (c = Unknown) then Some (unknownAMI region amiID) else None
    | Some [image] =>
        match categoryOf image with
        | Some c' =>
            if decide (c = c') then Some (makeAMI region amiID image) else None
        | None => None
        end
    | Some _ => bucket c (fileResponse region amiID response initial) !! amiID
    end.
Proof.
  destruct response as [[|image [|image' images]]|]; [| |done|].
  - unfold fileResponse. cbn [length Nat.eqb].
    rewrite bucket_put_lookup, bucket_initial.
    destruct (decide (c = Unknown)) as [->|Hne].
    + by rewrite decide_True.
    + rewrite decide_False; [done|]. intros [? _]. by apply Hne.
  - unfold fileResponse. cbn [length Nat.eqb foldl].
    rewrite fileImage_categoryOf. destruct (categoryOf image) as [c'|].
    + rewrite bucket_put_lookup, bucket_initial.
      destruct (decide (c = c')) as [->|Hne].
      * by rewrite decide_True.
      * rewrite decide_False; [done|]. intros [? _]. by apply Hne.
    + apply bucket_initial.
  - apply bucket_initial.
Qed.

Lemma categories_resolved env st region amiID :
  Inv env st → (region, amiID) ∈ resolved st →
  categories st amiID =
    categories (fileResponse region amiID
                  (DescribeImages env region [amiID]) initial) amiID.
Proof.
  intros HI Hin. apply categories_agree. intros c.
  by apply (inv_filed _ _ HI).
Qed.

Lemma categories_unresolved env st amiID :
  Inv env st → amiID ∉ (resolved st).*2 → categories st amiID = [].
Proof.
  intros HI Hnin. apply categories_none. intros c.
  by apply (inv_unseen _ _ HI).
Qed.

Lemma resolved_region_unique env st region region' amiID :
  Inv env st →
  (region, amiID) ∈ resolved st → (region', amiID) ∈ resolved st →
  region = region'.
Proof.
  intros HI. pose proof (inv_nodup _ _ HI) as Hnd. revert Hnd.
  generalize (resolved st). intros l.
  induction l as [|[r a] l IH]; intros Hnd H1 H2.
  { by apply elem_of_nil in H1. }
  cbn in Hnd. apply NoDup_cons in Hnd as [Hhd Hnd].
  apply elem_of_cons in H1 as [H1|H1], H2 as [H2|H2].
  - congruence.
  - injection H1 as -> ->. exfalso. apply Hhd.
    apply list_elem_of_fmap. by exists (region', a).
  - injection H2 as -> ->. exfalso. apply Hhd.
    apply list_elem_of_fmap. by exists (region, a).
  - by apply IH.
Qed.

Lemma singleImages_elem env st region amiID images :
  singleImages env st = true →
  (region, amiID) ∈ resolved st →
  DescribeImages env region [amiID] = Some images →
  (length images ≤ 1)%nat.
Proof.
  unfold singleImages. rewrite forallb_forall. intros Hall Hin Hresp.
  apply list_elem_of_In in Hin. specialize (Hall _ Hin). cbn in Hall.
  rewrite Hresp in Hall. by apply Nat.leb_le.
Qed.

(** Under an id the maps hold at most one record when its response had
    at most one image. *)
Lemma filed_category env st region amiID c ami :
  Inv env st → singleImages env st = true →
  (region, amiID) ∈ resolved st →
  bucket c st !! amiID = Some ami →
  match DescribeImages env region [amiID] with
  | None => False
  | Some [] => c = Unknown ∧ ami = unknownAMI region amiID
  | Some (image :: _) =>
      categoryOf image = Some c ∧ ami = makeAMI region amiID image
  end.
Proof.
  intros HI Hone Hin Hc.
  rewrite (inv_filed _ _ HI _ _ _ Hin), fileResponse_initial in Hc.
  pose proof (singleImages_elem env st region amiID) as Hlen.
  destruct (DescribeImages env region [amiID])
    as [[|image [|image' images]]|]; [| | |done].
  - case_decide; [|done]. by injection Hc as <-.
  - destruct (categoryOf image) as [c'|]; [|done].
    case_decide; [|done]. subst c'. by injection Hc as <-.
  - specialize (Hlen _ Hone Hin eq_refl). cbn in Hlen. lia.
Qed.

(** Under the same id two maps hold a record only if they are the same
    map. *)
Lemma filed_unique env st amiID c1 c2 ami1 ami2 :
  Inv env st → singleImages env st = true →
  bucket c1 st !! amiID = Some ami1 →
  bucket c2 st !! amiID = Some ami2 → c1 = c2.
Proof.
  intros HI Hone H1 H2.
  destruct (Inv_lookup _ _ _ _ _ HI H1) as (r1 & Hin1 & _).
  destruct (Inv_lookup _ _ _ _ _ HI H2) as (r2 & Hin2 & _).
  rewrite <- (resolved_region_unique _ _ _ _ _ HI Hin1 Hin2) in Hin2.
  pose proof (filed_category _ _ _ _ _ _ HI Hone Hin1 H1) as F1.
  pose proof (filed_category _ _ _ _ _ _ HI Hone Hin2 H2) as F2.
  destruct (DescribeImages env r1 [amiID]) as [[|image images]|];
    [| |done].
  - destruct F1 as [-> _], F2 as [-> _]. done.
  - destruct F1 as [F1 _], F2 as [F2 _]. congruence.
Qed.

Lemma observations_snd env regions :
  (observations env regions).*2 = flat_map (observed env) regions.
Proof.
  unfold observations. induction regions as [|r rs IH]; [done|].
  cbn [flat_map]. by rewrite fmap_app, pairs_snd, IH.
Qed.




(** ** Deduplication *)


(** ** Disjoint maps *)

(** C10, as the code has it: at every point of a scan whose
    [DescribeImages] responses hold at most one image, the four maps are
    pairwise disjoint: no image id is a key of two of them. *)
Theorem buckets_pairwise_disjoint env st :
  reachable env st → singleImages env st = true →
  (∀ c1 c2, c1 ≠ c2 → bucket c1 st ##ₘ bucket c2 st) ∧
  (∀ amiID c1 c2,
     is_Some (bucket c1 st !! amiID) → is_Some (bucket c2 st !! amiID) →
     c1 = c2).
Proof.
  intros Hreach Hone. pose proof (reachable_Inv _ _ Hreach) as HI.
  split.
  - intros c1 c2 Hne. apply map_disjoint_spec. intros amiID ami1 ami2 H1 H2.
    apply Hne. by apply (filed_unique env st amiID c1 c2 ami1 ami2).
  - intros amiID c1 c2 [ami1 H1] [ami2 H2].
    by apply (filed_unique env st amiID c1 c2 ami1 ami2).
Qed.

(** C10 as stated fails: the loop of line 169 runs its body for every
    image of the response, so when the lookup of [ami-9] is answered with
    an Amazon image and a private image the id is filed twice, and the
    scan ends with it as a key of the verified map and of the private
    map. *)
Lemma two_images_two_buckets :
  let st := scan twinAccount ["eu-west-1"] in
  reachable twinAccount st ∧
  singleImages twinAccount st = false ∧
  categories st "ami-9" = [Verified; Private] ∧
  is_Some (bucket Verified st !! "ami-9") ∧
  is_Some (bucket Private st !! "ami-9") ∧
  ¬ (bucket Verified st ##ₘ bucket Private st).
Proof.
  intros st.
  assert (Hcats : categories st "ami-9" = [Verified; Private])
    by (by vm_compute).
  assert (Hv : is_Some (bucket Verified st !! "ami-9")).
  { apply categories_elem. rewrite Hcats. apply elem_of_cons. by left. }
  assert (Hp : is_Some (bucket Private st !! "ami-9")).
  { apply categories_elem. rewrite Hcats. apply elem_of_cons. right.
    apply elem_of_cons. by left. }
  split; [apply scan_reachable|]. split; [by vm_compute|].
  split; [exact Hcats|]. split; [exact Hv|]. split; [exact Hp|].
  intros Hdisj. destruct Hv as [ami1 H1], Hp as [ami2 H2].
  rewrite map_disjoint_spec in Hdisj.
  exact (Hdisj "ami-9" ami1 ami2 H1 H2).
Qed.

Lemma buckets_pairwise_disjoint_tidy :
  let st := scan tidyAccount ["eu-west-1"; "us-east-1"; "ap-south-1"] in
  reachable tidyAccount st ∧ singleImages tidyAccount st = true ∧
  bucket Verified st ##ₘ bucket Unverified st.
Proof.
  intros st. split; [apply scan_reachable|]. split; [by vm_compute|].
  apply (buckets_pairwise_disjoint tidyAccount st);
    [apply scan_reachable | by vm_compute | done].
Defined.

Lemma categories_fileResponse_initial region amiID response :
  categories (fileResponse region amiID response initial) amiID =
    match response with
    | None => []
    | Some [] => [Unknown]
    | Some [image] =>
        match categoryOf image with
        | Some c => [c]
        | None => []
        end
    | Some _ => categories (fileResponse region amiID response initial) amiID
    end.
Proof.
  destruct response as [[|image [|image' images]]|]; [| |done|].
  - apply (categories_only _ _ _ (unknownAMI region amiID)). intros c.
    by rewrite fileResponse_initial.
  - destruct (categoryOf image) as [c|] eqn:Hcat.
    + apply (categories_only _ _ _ (makeAMI region amiID image)). intros c'.
      by rewrite fileResponse_initial, Hcat.
    + apply categories_none. intros c'.
      by rewrite fileResponse_initial, Hcat.
  - apply categories_none. intros c. by rewrite fileResponse_initial.
Qed.

Lemma processed_resolved env st amiID :
  Inv env st →
  index (processedAMIs st) amiID = true →
  ∃ region, (region, amiID) ∈ resolved st.
Proof.
  intros HI Hidx. apply (index_true_resolved _ _ _ HI) in Hidx.
  apply list_elem_of_fmap in Hidx as ([r a] & Ha & Hin). cbn in Ha. subst a.
  by exists r.
Qed.

Lemma resolved_processed env st region amiID :
  Inv env st →
  (region, amiID) ∈ resolved st → index (processedAMIs st) amiID = true.
Proof.
  intros HI Hin. apply (index_true_resolved _ _ _ HI).
  apply list_elem_of_fmap. by exists (region, amiID).
Qed.

(** ** Images that do not resolve *)

(** C6: when [DescribeImages] answers the one call made for an image id
    with an empty image list, the scan ends with the id in the unknown
    map, and only there, under a record whose owner alias, owner id, name,
    description and visibility are all the string [Unknown]. *)
Theorem missing_image_filed_unknown env regions region amiID :
  let st := scan env regions in
  (region, amiID) ∈ resolved st →
  DescribeImages env region [amiID] = Some [] →
  unknownAMIs st !! amiID =
    Some {| ID := amiID; Region := region; OwnerAlias := "Unknown";
            OwnerID := "Unknown"; Name := "Unknown";
            Description := "Unknown"; Public := "Unknown" |} ∧
  categories st amiID = [Unknown].
Proof.
  intros st Hin Hresp. pose proof (scan_Inv env regions) as HI. fold st in HI.
  split.
  - change (unknownAMIs st) with (bucket Unknown st).
    by rewrite (inv_filed _ _ HI _ _ _ Hin), Hresp, fileResponse_initial.
  - by rewrite (categories_resolved _ _ _ _ HI Hin), Hresp,
      categories_fileResponse_initial.
Qed.

Lemma missing_image_filed_unknown_tidy :
  let st := scan tidyAccount ["eu-west-1"; "us-east-1"; "ap-south-1"] in
  ("ap-south-1", "ami-3") ∈ resolved st ∧
  DescribeImages tidyAccount "ap-south-1" ["ami-3"] = Some [] ∧
  unknownAMIs st !! "ami-3" =
    Some (mkAMI "ami-3" "ap-south-1" "Unknown" "Unknown" "Unknown" "Unknown"
                "Unknown") ∧
  categories st "ami-3" = [Unknown].
Proof.
  intros st.
  assert (Hin : ("ap-south-1", "ami-3") ∈ resolved st).
  { apply (bool_decide_unpack _). by vm_compute. }
  split; [done|]. split; [reflexivity|].
  apply (missing_image_filed_unknown tidyAccount
           ["eu-west-1"; "us-east-1"; "ap-south-1"] "ap-south-1" "ami-3");
    [exact Hin | reflexivity].
Defined.

(** C7, as the code has it: when the one [DescribeImages] call made for an
    image id fails, the id stays marked as processed and is filed in no
    map, the unknown map included; the scan goes on and its summary is
    printed. *)
Theorem failed_lookup_skipped env regions region amiID :
  let st := scan env regions in
  (region, amiID) ∈ resolved st →
  DescribeImages env region [amiID] = None →
  index (processedAMIs st) amiID = true ∧
  categories st amiID = [] ∧
  unknownAMIs st !! amiID = None ∧
  ∀ flag, fetchRegions env flag = Some regions →
          run env flag = Some (st, summary st).
Proof.
  intros st Hin Hresp. pose proof (scan_Inv env regions) as HI. fold st in HI.
  split; [by apply (resolved_processed _ _ _ _ HI Hin)|]. split; [|split].
  - by rewrite (categories_resolved _ _ _ _ HI Hin), Hresp,
      categories_fileResponse_initial.
  - change (unknownAMIs st) with (bucket Unknown st).
    by rewrite (inv_filed _ _ HI _ _ _ Hin), Hresp, fileResponse_initial.
  - intros flag Hflag. unfold run. by rewrite Hflag.
Qed.

Lemma failed_lookup_skipped_failing :
  let st := scan failingAccount ["eu-west-1"] in
  ("eu-west-1", "ami-7") ∈ resolved st ∧
  DescribeImages failingAccount "eu-west-1" ["ami-7"] = None ∧
  index (processedAMIs st) "ami-7" = true ∧
  categories st "ami-7" = [] ∧
  unknownAMIs st !! "ami-7" = None ∧
  run failingAccount "" = Some (st, summary st).
Proof.
  intros st.
  assert (Hin : ("eu-west-1", "ami-7") ∈ resolved st).
  { apply (bool_decide_unpack _). by vm_compute. }
  split; [done|]. split; [reflexivity|].
  destruct (failed_lookup_skipped failingAccount ["eu-west-1"]
              "eu-west-1" "ami-7" Hin eq_refl) as (H1 & H2 & H3 & H4).
  split; [exact H1|]. split; [exact H2|]. split; [exact H3|].
  apply H4. reflexivity.
Defined.

(** C7 as stated fails: the lookup of [ami-7] fails and the image is not
    in the unknown map when the scan ends, although it was processed. *)
Lemma failed_lookup_not_unknown :
  let st := scan failingAccount ["eu-west-1"] in
  resolved st = [("eu-west-1", "ami-7"); ("eu-west-1", "ami-1")] ∧
  DescribeImages failingAccount "eu-west-1" ["ami-7"] = None ∧
  index (processedAMIs st) "ami-7" = true ∧
  ¬ is_Some (unknownAMIs st !! "ami-7").
Proof.
  intros st. split; [by vm_compute|]. split; [reflexivity|].
  split; [by vm_compute|].
  assert (H : unknownAMIs st !! "ami-7" = None) by (by vm_compute).
  rewrite H. apply is_Some_None.
Qed.

(** ** Public images *)

(** The unverified branch of lines 186-203: a public image whose owner
    alias is absent (nil or the empty string) is assigned to the
    unverified map by the loop body, and when it is the answer to the call
    made for an image id the scan ends with its record in the unverified
    map and in no other. *)
Lemma public_without_alias_unverified env regions region amiID image :
  let st := scan env regions in
  ImagePublic image = true →
  ToString (ImageOwnerAlias image) = "" →
  (∀ st0, fileImage region amiID st0 image =
            put Unverified amiID (makeAMI region amiID image) st0) ∧
  ((region, amiID) ∈ resolved st →
   DescribeImages env region [amiID] = Some [image] →
   unverifiedAMIs st !! amiID = Some (makeAMI region amiID image) ∧
   categories st amiID = [Unverified]).
Proof.
  intros st Hpublic Halias.
  assert (Hcat : categoryOf image = Some Unverified).
  { unfold categoryOf. by rewrite Hpublic, Halias. }
  split.
  - intros st0. by rewrite fileImage_categoryOf, Hcat.
  - intros Hin Hresp. pose proof (scan_Inv env regions) as HI. fold st in HI.
    split.
    + change (unverifiedAMIs st) with (bucket Unverified st).
      by rewrite (inv_filed _ _ HI _ _ _ Hin), Hresp, fileResponse_initial,
        Hcat.
    + by rewrite (categories_resolved _ _ _ _ HI Hin), Hresp,
        categories_fileResponse_initial, Hcat.
Qed.

Lemma public_without_alias_unverified_tidy :
  let image := mkImage None (Some "999999999999") (Some "ubuntu") None true in
  let st := scan tidyAccount ["eu-west-1"; "us-east-1"; "ap-south-1"] in
  ImagePublic image = true ∧
  ToString (ImageOwnerAlias image) = "" ∧
  ("eu-west-1", "ami-2") ∈ resolved st ∧
  DescribeImages tidyAccount "eu-west-1" ["ami-2"] = Some [image] ∧
  unverifiedAMIs st !! "ami-2" =
    Some (mkAMI "ami-2" "eu-west-1" "" "999999999999" "ubuntu" "" "Public") ∧
  categories st "ami-2" = [Unverified].
Proof.
  intros image st.
  assert (Hin : ("eu-west-1", "ami-2") ∈ resolved st).
  { apply (bool_decide_unpack _). by vm_compute. }
  split; [reflexivity|]. split; [reflexivity|]. split; [exact Hin|].
  split; [reflexivity|].
  destruct (public_without_alias_unverified tidyAccount
              ["eu-west-1"; "us-east-1"; "ap-south-1"] "eu-west-1" "ami-2"
              image eq_refl eq_refl) as [_ H].
  exact (H Hin eq_refl).
Defined.

(** C1, where the code departs from it: [ami-8] is public and carries the
    alias [12345], which is neither [amazon] nor [self].  Lines 187-199
    handle a non-empty alias only when it is one of these two, so the loop
    body assigns the image to no map: the scan ends with the id marked as
    processed and absent from the unverified map and from the other
    three. *)
Theorem third_party_alias_not_unverified :
  let image :=
    mkImage (Some "12345") (Some "444455556666") (Some "base") None true in
  let st := scan thirdPartyAccount ["eu-west-1"] in
  DescribeImages thirdPartyAccount "eu-west-1" ["ami-8"] = Some [image] ∧
  resolved st = [("eu-west-1", "ami-8")] ∧
  index (processedAMIs st) "ami-8" = true ∧
  fileImage "eu-west-1" "ami-8" initial image = initial ∧
  ¬ is_Some (unverifiedAMIs st !! "ami-8") ∧
  categories st "ami-8" = [].
Proof.
  intros image st. split; [reflexivity|]. split; [by vm_compute|].
  split; [by vm_compute|].
  split; [reflexivity|]. split; [|by vm_compute].
  assert (H : unverifiedAMIs st !! "ami-8" = None) by (by vm_compute).
  rewrite H. apply is_Some_None.
Qed.

(** ** Coverage *)

(** C2, as the code has it: when the scan ends, an image id that is in a
    map was processed, and (the responses holding at most one image) a
    processed id is in at most one map: in exactly one when its lookup
    succeeded with no image or with an image that the loop body assigns
    to a map, in none when its lookup failed. *)
Theorem processed_in_at_most_one_bucket env regions amiID :
  let st := scan env regions in
  singleImages env st = true →
  (∀ c, is_Some (bucket c st !! amiID) →
        index (processedAMIs st) amiID = true) ∧
  (length (categories st amiID) ≤ 1)%nat ∧
  (index (processedAMIs st) amiID = true →
   ∃ region,
     (region, amiID) ∈ resolved st ∧
     match DescribeImages env region [amiID] with
     | None => categories st amiID = []
     | Some images =>
         (∀ image, image ∈ images → is_Some (categoryOf image)) →
         ∃ c, categories st amiID = [c]
     end).
Proof.
  intros st Hone. pose proof (scan_Inv env regions) as HI. fold st in HI.
  assert (Hcases : ∀ region, (region, amiID) ∈ resolved st →
            match DescribeImages env region [amiID] with
            | None => categories st amiID = []
            | Some [] => categories st amiID = [Unknown]
            | Some (image :: _) =>
                categories st amiID =
                  match categoryOf image with Some c => [c] | None => [] end
            end).
  { intros region Hin.
    rewrite (categories_resolved _ _ _ _ HI Hin),
      categories_fileResponse_initial.
    pose proof (singleImages_elem env st region amiID) as Hlen.
    destruct (DescribeImages env region [amiID])
      as [[|image [|image' images]]|]; [done|done| |done].
    specialize (Hlen _ Hone Hin eq_refl). cbn in Hlen. lia. }
  split; [|split].
  - intros c [ami Hc].
    destruct (Inv_lookup _ _ _ _ _ HI Hc) as (region & Hin & _).
    by apply (resolved_processed _ _ _ _ HI Hin).
  - destruct (decide (amiID ∈ (resolved st).*2)) as [Hin|Hnin].
    + apply list_elem_of_fmap in Hin as ([r a] & Ha & Hin). cbn in Ha.
      subst a. specialize (Hcases r Hin).
      destruct (DescribeImages env r [amiID]) as [[|image images]|].
      * rewrite Hcases. cbn. lia.
      * rewrite Hcases. destruct (categoryOf image); cbn; lia.
      * rewrite Hcases. cbn. lia.
    + rewrite (categories_unresolved _ _ _ HI Hnin). cbn. lia.
  - intros Hidx.
    destruct (processed_resolved _ _ _ HI Hidx) as (region & Hin).
    exists region. split; [done|]. specialize (Hcases region Hin).
    destruct (DescribeImages env region [amiID]) as [[|image images]|];
      [| |done].
    + intros _. by exists Unknown.
    + intros Hall. destruct (Hall image) as [c Hc]; [apply elem_of_cons; by left|].
      exists c. by rewrite Hcases, Hc.
Qed.

Lemma processed_in_at_most_one_bucket_tidy :
  let st := scan tidyAccount ["eu-west-1"; "us-east-1"; "ap-south-1"] in
  singleImages tidyAccount st = true ∧
  (length (categories st "ami-4") ≤ 1)%nat.
Proof.
  intros st. split; [by vm_compute|].
  apply (processed_in_at_most_one_bucket tidyAccount
           ["eu-west-1"; "us-east-1"; "ap-south-1"] "ami-4").
  by vm_compute.
Defined.

(** C2 as stated fails: [ami-7] was processed, its lookup failed, and when
    the scan ends it is in none of the four maps. *)
Lemma processed_image_in_no_bucket :
  let st := scan failingAccount ["eu-west-1"] in
  index (processedAMIs st) "ami-7" = true ∧
  categories st "ami-7" = [] ∧
  ¬ ∃ c, is_Some (bucket c st !! "ami-7").
Proof.
  intros st. split; [by vm_compute|].
  assert (Hnone : categories st "ami-7" = []) by (by vm_compute).
  split; [done|]. intros [c Hc]. apply categories_elem in Hc.
  rewrite Hnone in Hc. by apply elem_of_nil in Hc.
Qed.

(** ** Counting *)

Lemma analyseAMI_processed_size env region st amiID :
  (size (processedAMIs (analyseAMI env region st amiID))
   ≤ S (size (processedAMIs st)))%nat.
Proof.
  unfold analyseAMI. destruct (index (processedAMIs st) amiID);
    cbv beta iota zeta; [lia|].
  destruct (fileResponse_fields region amiID
              (DescribeImages env region [amiID])
              (logResolve region amiID (markProcessed amiID st)))
    as (-> & _ & _).
  cbn [processedAMIs logResolve markProcessed].
  rewrite map_size_insert.
  destruct (processedAMIs st !! amiID); unfold id; lia.
Qed.

Lemma steps_processed_size env obs st :
  (size (processedAMIs (foldl (step env) st obs))
   ≤ size (processedAMIs st) + length obs)%nat.
Proof.
  revert st. induction obs as [|[r a] obs IH]; intros st; [cbn; lia|].
  change (foldl (step env) st ((r, a) :: obs))
    with (foldl (step env) (analyseAMI env r st a) obs).
  specialize (IH (analyseAMI env r st a)).
  pose proof (analyseAMI_processed_size env r st a) as Hstep.
  cbn [length]. lia.
Qed.

Lemma steps_total env obs st :
  totalInstances (foldl (step env) st obs) = totalInstances st.
Proof.
  apply (foldl_preserves (fun s => totalInstances s = totalInstances st));
    [|done].
  intros s [r a] <-. apply analyseAMI_total.
Qed.

Lemma flat_map_short {A B} (f : A -> list B) (l : list A) :
  forallb (fun a => Nat.leb (length (f a)) 1) l = true →
  (length (flat_map f l) ≤ length l)%nat.
Proof.
  induction l as [|a l IH]; [done|]. cbn [forallb flat_map length].
  rewrite andb_true_iff, Nat.leb_le, length_app. intros [Ha Hl].
  specialize (IH Hl). lia.
Qed.

Lemma observed_listed env region :
  match DescribeInstances env region [] with
  | Some reservations =>
      forallb (fun instanceID =>
                 Nat.leb (length (observedBy env region instanceID)) 1)
              (collectInstanceIDs reservations)
  | None => true
  end = true →
  (length (observed env region) ≤ listed env region)%nat.
Proof.
  unfold observed, listed.
  destruct (DescribeInstances env region []) as [rs|]; [|done].
  apply flat_map_short.
Qed.

Lemma observations_listed env regions :
  singleInstances env regions = true →
  (length (observations env regions)
   ≤ sum_list (map (listed env) regions))%nat.
Proof.
  unfold singleInstances, observations.
  induction regions as [|r rs IH]; [done|].
  cbn [forallb flat_map map sum_list].
  rewrite andb_true_iff, length_app, length_map. intros [Hr Hrs].
  specialize (IH Hrs). pose proof (observed_listed env r Hr).
  change (id (listed env r)) with (listed env r). lia.
Qed.

Lemma scan_processed_listed env regions :
  singleInstances env regions = true →
  (size (processedAMIs (scan env regions))
   ≤ totalInstances (scan env regions))%nat.
Proof.
  intros Hone. rewrite scan_flat. cbn [processedAMIs totalInstances addInstances].
  rewrite steps_total.
  pose proof (steps_processed_size env (observations env regions) initial)
    as Hsize.
  pose proof (observations_listed env regions Hone) as Hlen.
  cbn [processedAMIs totalInstances initial] in *.
  rewrite map_size_empty in Hsize. lia.
Qed.

(** The four maps taken together. *)
Lemma filed_size env st :
  Inv env st → singleImages env st = true →
  ∃ filed : gmap string AMI,
    size filed =
      (size (privateAMIs st) + size (verifiedAMIs st)
       + size (unknownAMIs st) + size (unverifiedAMIs st))%nat ∧
    ∀ amiID, amiID ∈ dom filed ↔ ∃ c, is_Some (bucket c st !! amiID).
Proof.
  intros HI Hone.
  assert (Hdisj : ∀ c1 c2, c1 ≠ c2 → bucket c1 st ##ₘ bucket c2 st).
  { intros c1 c2 Hne. apply map_disjoint_spec. intros amiID ami1 ami2 H1 H2.
    apply Hne. by apply (filed_unique env st amiID c1 c2 ami1 ami2). }
  exists (bucket Private st ∪ bucket Verified st ∪ bucket Unknown st
          ∪ bucket Unverified st).
  split.
  - rewrite !map_size_disj_union; [done|..];
      repeat (apply map_disjoint_union_l; split); by apply Hdisj.
  - intros amiID. rewrite !dom_union_L, !elem_of_union, !elem_of_dom.
    split.
    + intros [[[H|H]|H]|H]; eauto.
    + intros [[] H]; tauto.
Qed.

Lemma allFiled_elem env st region amiID :
  allFiled env st = true →
  (region, amiID) ∈ resolved st →
  ∃ images,
    DescribeImages env region [amiID] = Some images ∧
    ∀ image, image ∈ images → is_Some (categoryOf image).
Proof.
  unfold allFiled. rewrite forallb_forall. intros Hall Hin.
  apply list_elem_of_In in Hin. specialize (Hall _ Hin). cbn in Hall.
  destruct (DescribeImages env region [amiID]) as [images|]; [|done].
  exists images. split; [done|]. intros image Himage.
  rewrite forallb_forall in Hall. apply list_elem_of_In in Himage.
  specialize (Hall _ Himage). by apply bool_decide_eq_true in Hall.
Qed.

(** C3, as the code has it: when the scan ends (its responses holding at
    most one image and at most one instance), the four map sizes of the
    summary add up to at most the number of image ids processed, which is
    at most the instance total; they add up to exactly that number when
    every lookup succeeded with images that the loop body assigns to a
    map. *)
Theorem counts_reconcile env regions :
  let st := scan env regions in
  let s := summary st in
  singleImages env st = true →
  singleInstances env regions = true →
  (PrivateAMIs s + VerifiedAMIs s + UnknownAMIs s + UnverifiedAMIs s
   ≤ TotalAMIs s)%nat ∧
  (TotalAMIs s ≤ TotalInstances s)%nat ∧
  (allFiled env st = true →
   (PrivateAMIs s + VerifiedAMIs s + UnknownAMIs s + UnverifiedAMIs s)%nat
   = TotalAMIs s).
Proof.
  intros st s Himages Hinstances.
  pose proof (scan_Inv env regions) as HI. fold st in HI.
  destruct (filed_size env st HI Himages) as (filed & Hsize & Hdom).
  unfold s, summary. cbn [PrivateAMIs VerifiedAMIs UnknownAMIs UnverifiedAMIs
                          TotalAMIs TotalInstances].
  rewrite <- Hsize, <- (size_dom filed), <- (size_dom (processedAMIs st)).
  assert (Hsub : dom filed ⊆ dom (processedAMIs st)).
  { intros amiID Hin. apply Hdom in Hin as [c [ami Hc]].
    destruct (Inv_lookup _ _ _ _ _ HI Hc) as (region & Hres & _).
    apply elem_of_dom. rewrite (inv_processed _ _ HI).
    rewrite decide_True; [done|]. apply list_elem_of_fmap.
    by exists (region, amiID). }
  split; [by apply subseteq_size|]. split.
  - rewrite size_dom. by apply scan_processed_listed.
  - intros Hall. f_equal. apply set_eq. intros amiID. split; [apply Hsub|].
    intros Hin. apply elem_of_dom in Hin.
    rewrite (inv_processed _ _ HI) in Hin.
    destruct (decide (amiID ∈ (resolved st).*2)) as [Hres|];
      [|by destruct Hin].
    apply list_elem_of_fmap in Hres as ([r a] & Ha & Hres). cbn in Ha. subst a.
    destruct (allFiled_elem _ _ _ _ Hall Hres) as (images & Hresp & Hcat).
    pose proof (singleImages_elem _ _ _ _ _ Himages Hres Hresp) as Hlen.
    apply Hdom.
    destruct images as [|image [|image' images]]; [| |cbn in Hlen; lia].
    + exists Unknown.
      rewrite (inv_filed _ _ HI _ _ _ Hres), Hresp, fileResponse_initial.
      by rewrite decide_True.
    + destruct (Hcat image) as [c Hc]; [apply elem_of_cons; by left|].
      exists c.
      rewrite (inv_filed _ _ HI _ _ _ Hres), Hresp, fileResponse_initial, Hc.
      by rewrite decide_True.
Qed.

Lemma counts_reconcile_tidy :
  let regions := ["eu-west-1"; "us-east-1"; "ap-south-1"] in
  let st := scan tidyAccount regions in
  singleImages tidyAccount st = true ∧
  singleInstances tidyAccount regions = true ∧
  allFiled tidyAccount st = true ∧
  summary st = mkSummary 6 5 1 2 1 1 ∧
  (1 + 2 + 1 + 1 ≤ 5)%nat ∧ (5 ≤ 6)%nat ∧ (1 + 2 + 1 + 1)%nat = 5%nat.
Proof.
  intros regions st.
  assert (Hs : summary st = mkSummary 6 5 1 2 1 1) by (by vm_compute).
  assert (H1 : singleImages tidyAccount st = true) by (by vm_compute).
  assert (H2 : singleInstances tidyAccount regions = true) by (by vm_compute).
  assert (H3 : allFiled tidyAccount st = true) by (by vm_compute).
  split; [exact H1|]. split; [exact H2|]. split; [exact H3|].
  split; [exact Hs|].
  destruct (counts_reconcile tidyAccount regions H1 H2) as (Hle & Hle' & Heq).
  specialize (Heq H3). fold st in Hle, Hle', Heq. rewrite Hs in Hle, Hle', Heq.
  split; [exact Hle|]. split; [exact Hle'|exact Heq].
Defined.

(** C3 as stated fails: the scan of the failing account processes two
    image ids and files only [ami-1], the lookup of [ami-7] having failed,
    so the four map sizes add up to 1 and not to the 2 images of the
    summary. *)
Lemma counts_do_not_add_up :
  let s := summary (scan failingAccount ["eu-west-1"]) in
  s = mkSummary 2 2 0 1 0 0 ∧
  (PrivateAMIs s + VerifiedAMIs s + UnknownAMIs s + UnverifiedAMIs s)%nat
  ≠ TotalAMIs s.
Proof.
  intros s. assert (Hs : s = mkSummary 2 2 0 1 0 0) by (by vm_compute).
  split; [exact Hs|]. rewrite Hs. cbn. lia.
Qed.

(** ** Regions that cannot be listed *)

Lemma foldl_filter {A B} (P : B -> Prop) `{∀ b, Decision (P b)}
    (f : A -> B -> A) l a :
  (∀ a b, ¬ P b → f a b = a) →
  foldl f a (filter P l) = foldl f a l.
Proof.
  intros Hskip. revert a. induction l as [|b l IH]; intros a; [done|].
  rewrite filter_cons. cbn [foldl]. case_decide as Hb.
  - cbn [foldl]. apply IH.
  - by rewrite (Hskip a b Hb).
Qed.

(** C8: a region whose instances cannot be listed leaves the variables of
    the scan as they are, so a scan ends in the state it would reach on
    the listable regions alone, and the summary of that state is printed
    whichever regions failed. *)
Theorem failed_regions_skipped env flag regions :
  fetchRegions env flag = Some regions →
  let listable :=
    filter (fun region => is_Some (DescribeInstances env region [])) regions in
  (∀ st region,
     DescribeInstances env region [] = None → scanRegion env st region = st) ∧
  scan env regions = scan env listable ∧
  run env flag = Some (scan env listable, summary (scan env listable)).
Proof.
  intros Hflag listable.
  assert (Hscan : scan env regions = scan env listable).
  { unfold scan, listable. symmetry. apply foldl_filter.
    intros st region Hnone. apply scanRegion_failed.
    destruct (DescribeInstances env region []); [|done].
    exfalso. by apply Hnone. }
  split; [intros st region; apply scanRegion_failed|]. split; [done|].
  unfold run. by rewrite Hflag, Hscan.
Qed.

Lemma failed_regions_skipped_tidy :
  let st := scan tidyAccount ["eu-west-1"; "ap-south-1"] in
  fetchRegions tidyAccount "" = Some ["eu-west-1"; "us-east-1"; "ap-south-1"] ∧
  DescribeInstances tidyAccount "us-east-1" [] = None ∧
  run tidyAccount "" = Some (st, summary st) ∧
  summary st = mkSummary 6 5 1 2 1 1.
Proof.
  intros st. split; [reflexivity|]. split; [reflexivity|].
  split; [|by vm_compute].
  apply (failed_regions_skipped tidyAccount ""
           ["eu-west-1"; "us-east-1"; "ap-south-1"] eq_refl).
Defined.

(** ** The report *)

Lemma splitOn_app sep s t :
  contains sep s = false →
  splitOn sep (s ++ String sep t) = s :: splitOn sep t.
Proof.
  induction s as [|c s IH]; simpl.
  - intros _. by rewrite Ascii.eqb_refl.
  - rewrite orb_false_iff. intros [Hc Hs]. rewrite Hc, (IH Hs). done.
Qed.

Lemma columns_app s t :
  contains "|" s = false → columns (s ++ "|" ++ t) = s :: columns t.
Proof. apply splitOn_app. Qed.

Lemma columns_literal s t :
  contains "|" s = false → columns (s ++ String "|" t) = s :: columns t.
Proof. apply splitOn_app. Qed.

(** Every line of the report carries the status of its map in the third
    column. *)
Lemma line_status c ami :
  contains "|" (ID ami) = false → contains "|" (Region ami) = false →
  columns (line c ami) !! 2%nat = Some (status c).
Proof.
  intros Hid Hregion.
  destruct c; unfold line, detailLine, unknownLine;
    rewrite (columns_app _ _ Hid);
    [rewrite (columns_app _ _ Hregion), columns_app by done; done
    |rewrite (columns_app _ _ Hregion), columns_app by done; done
    |rewrite (columns_literal _ _ Hregion); done
    |rewrite (columns_app _ _ Hregion), columns_app by done; done].
Qed.

(** C4, where the code departs from it: the header has eight columns, as
    have the lines of the verified, private and unverified maps, but the
    line written for a record of the unknown map has seven: the status
    and four more [Unknown], one column short of the header. *)
Theorem unknown_row_has_seven_columns ami :
  contains "|" (ID ami) = false → contains "|" (Region ami) = false →
  columns headerLine =
    ["AMI ID"; "Region"; "whoAMI status"; "Public"; "Owner Alias";
     "Owner ID"; "Name"; "Description"] ∧
  columns (line Unknown ami) =
    [ID ami; Region ami; "Unknown"; "Unknown"; "Unknown"; "Unknown";
     "Unknown"] ∧
  length (columns (line Unknown ami)) = 7%nat ∧
  length (columns headerLine) = 8%nat.
Proof.
  intros Hid Hregion. split; [reflexivity|].
  assert (Hcols : columns (line Unknown ami) =
            [ID ami; Region ami; "Unknown"; "Unknown"; "Unknown"; "Unknown";
             "Unknown"]).
  { unfold line, unknownLine.
    by rewrite (columns_app _ _ Hid), (columns_literal _ _ Hregion). }
  split; [exact Hcols|]. split; [by rewrite Hcols|reflexivity].
Qed.

Lemma unknown_row_has_seven_columns_tidy :
  let st := scan tidyAccount ["eu-west-1"; "us-east-1"; "ap-south-1"] in
  let ami := unknownAMI "ap-south-1" "ami-3" in
  unknownAMIs st !! "ami-3" = Some ami ∧
  contains "|" (ID ami) = false ∧ contains "|" (Region ami) = false ∧
  row Unknown ami =
    "ami-3|ap-south-1|Unknown|Unknown|Unknown|Unknown|Unknown" ++ nl ∧
  length (columns (line Unknown ami)) = 7%nat ∧
  length (columns headerLine) = 8%nat.
Proof.
  intros st ami. split; [by vm_compute|]. split; [reflexivity|].
  split; [reflexivity|]. split; [reflexivity|].
  destruct (unknown_row_has_seven_columns ami eq_refl eq_refl)
    as (_ & _ & H7 & H8).
  split; [exact H7|exact H8].
Defined.

Lemma ranges_map_to_list m : ranges m (map_to_list m).
Proof. unfold ranges. done. Qed.


Lemma reportChunks_writeReport st verified private unknown unverified :
  ranges (verifiedAMIs st) verified → ranges (privateAMIs st) private →
  ranges (unknownAMIs st) unknown → ranges (unverifiedAMIs st) unverified →
  reportChunks st (writeReport verified private unknown unverified).
Proof.
  intros Hv Hp Hk Hu. exists verified, private, unknown, unverified. done.
Qed.







(** ** The decision of lines 186-209, branch by branch *)

Lemma single_image_filed env regions region amiID image c :
  (region, amiID) ∈ resolved (scan env regions) →
  DescribeImages env region [amiID] = Some [image] →
  categoryOf image = Some c →
  bucket c (scan env regions) !! amiID = Some (makeAMI region amiID image) ∧
  categories (scan env regions) amiID = [c].
Proof.
  intros Hin Hresp Hcat. pose proof (scan_Inv env regions) as HI. split.
  - rewrite (inv_filed _ _ HI _ _ _ Hin), Hresp, fileResponse_initial, Hcat.
    by rewrite decide_True.
  - by rewrite (categories_resolved _ _ _ _ HI Hin), Hresp,
      categories_fileResponse_initial, Hcat.
Qed.

(** X1: an image that is not public is filed in the private map, and in
    no other, whatever its owner alias, [amazon] included; its record
    says [Private]. *)
Theorem private_image_filed_private env regions region amiID image :
  let st := scan env regions in
  (region, amiID) ∈ resolved st →
  DescribeImages env region [amiID] = Some [image] →
  ImagePublic image = false →
  privateAMIs st !! amiID = Some (makeAMI region amiID image) ∧
  Public (makeAMI region amiID image) = "Private" ∧
  categories st amiID = [Private].
Proof.
  intros st Hin Hresp Hpublic.
  assert (Hcat : categoryOf image = Some Private).
  { unfold categoryOf. by rewrite Hpublic. }
  destruct (single_image_filed _ _ _ _ _ _ Hin Hresp Hcat) as [H1 H2].
  split; [exact H1|]. split; [|exact H2].
  unfold makeAMI. cbn. by rewrite Hpublic.
Qed.

Lemma private_image_filed_private_tidy :
  let st := scan tidyAccount ["eu-west-1"; "us-east-1"; "ap-south-1"] in
  let image :=
    mkImage None (Some "111122223333") (Some "golden") (Some "in-house")
            false in
  ("ap-south-1", "ami-5") ∈ resolved st ∧
  DescribeImages tidyAccount "ap-south-1" ["ami-5"] = Some [image] ∧
  privateAMIs st !! "ami-5" =
    Some (mkAMI "ami-5" "ap-south-1" "" "111122223333" "golden" "in-house"
                "Private") ∧
  categories st "ami-5" = [Private].
Proof.
  intros st image.
  assert (Hin : ("ap-south-1", "ami-5") ∈ resolved st).
  { apply (bool_decide_unpack _). by vm_compute. }
  split; [exact Hin|]. split; [reflexivity|].
  destruct (private_image_filed_private tidyAccount
              ["eu-west-1"; "us-east-1"; "ap-south-1"] "ap-south-1" "ami-5"
              image Hin eq_refl eq_refl) as (H1 & _ & H3).
  split; [exact H1|exact H3].
Defined.

(** X2: a public image whose owner alias is [amazon] is filed in the
    verified map, and in no other. *)
Theorem amazon_image_filed_verified env regions region amiID image :
  let st := scan env regions in
  (region, amiID) ∈ resolved st →
  DescribeImages env region [amiID] = Some [image] →
  ImagePublic image = true →
  ImageOwnerAlias image = Some "amazon" →
  verifiedAMIs st !! amiID = Some (makeAMI region amiID image) ∧
  categories st amiID = [Verified].
Proof.
  intros st Hin Hresp Hpublic Halias.
  assert (Hcat : categoryOf image = Some Verified).
  { unfold categoryOf. by rewrite Hpublic, Halias. }
  exact (single_image_filed _ _ _ _ _ _ Hin Hresp Hcat).
Qed.

Lemma amazon_image_filed_verified_tidy :
  let st := scan tidyAccount ["eu-west-1"; "us-east-1"; "ap-south-1"] in
  let image :=
    mkImage (Some "amazon") (Some "137112412989") (Some "al2023")
            (Some "Amazon Linux") true in
  ("eu-west-1", "ami-1") ∈ resolved st ∧
  DescribeImages tidyAccount "eu-west-1" ["ami-1"] = Some [image] ∧
  verifiedAMIs st !! "ami-1" =
    Some (mkAMI "ami-1" "eu-west-1" "amazon" "137112412989" "al2023"
                "Amazon Linux" "Public") ∧
  categories st "ami-1" = [Verified].
Proof.
  intros st image.
  assert (Hin : ("eu-west-1", "ami-1") ∈ resolved st).
  { apply (bool_decide_unpack _). by vm_compute. }
  split; [exact Hin|]. split; [reflexivity|].
  exact (amazon_image_filed_verified tidyAccount
           ["eu-west-1"; "us-east-1"; "ap-south-1"] "eu-west-1" "ami-1"
           image Hin eq_refl eq_refl eq_refl).
Defined.

(** X3: a public image whose owner alias is [self] is filed in the private
    map, and in no other, under a record that still says [Public]. *)
Theorem self_image_filed_private env regions region amiID image :
  let st := scan env regions in
  (region, amiID) ∈ resolved st →
  DescribeImages env region [amiID] = Some [image] →
  ImagePublic image = true →
  ImageOwnerAlias image = Some "self" →
  privateAMIs st !! amiID = Some (makeAMI region amiID image) ∧
  Public (makeAMI region amiID image) = "Public" ∧
  OwnerAlias (makeAMI region amiID image) = "self" ∧
  categories st amiID = [Private].
Proof.
  intros st Hin Hresp Hpublic Halias.
  assert (Hcat : categoryOf image = Some Private).
  { unfold categoryOf. by rewrite Hpublic, Halias. }
  destruct (single_image_filed _ _ _ _ _ _ Hin Hresp Hcat) as [H1 H2].
  split; [exact H1|]. unfold makeAMI. cbn. by rewrite Hpublic, Halias.
Qed.

Lemma self_image_filed_private_own :
  let st := scan ownAccount ["eu-west-1"] in
  let image :=
    mkImage (Some "self") (Some "111122223333") (Some "shared-base") None
            true in
  ("eu-west-1", "ami-6") ∈ resolved st ∧
  DescribeImages ownAccount "eu-west-1" ["ami-6"] = Some [image] ∧
  privateAMIs st !! "ami-6" =
    Some (mkAMI "ami-6" "eu-west-1" "self" "111122223333" "shared-base" ""
                "Public") ∧
  categories st "ami-6" = [Private].
Proof.
  intros st image.
  assert (Hin : ("eu-west-1", "ami-6") ∈ resolved st).
  { apply (bool_decide_unpack _). by vm_compute. }
  split; [exact Hin|]. split; [reflexivity|].
  destruct (self_image_filed_private ownAccount ["eu-west-1"] "eu-west-1"
              "ami-6" image Hin eq_refl eq_refl eq_refl)
    as (H1 & _ & _ & H4).
  split; [exact H1|exact H4].
Defined.

(** ** What the records of each map look like *)

Lemma makeAMI_shape region amiID image c :
  categoryOf image = Some c → shape c region amiID (makeAMI region amiID image).
Proof.
  unfold categoryOf, shape, makeAMI. cbn.
  destruct (ImagePublic image).
  - destruct (String.eqb_spec (ToString (ImageOwnerAlias image)) "")
      as [Hempty|_]; [intros [= <-]; by rewrite Hempty|].
    destruct (String.eqb_spec (ToString (ImageOwnerAlias image)) "amazon")
      as [Hamazon|_]; [intros [= <-]; by rewrite Hamazon|].
    destruct (String.eqb_spec (ToString (ImageOwnerAlias image)) "self")
      as [Hself|_]; [|done].
    intros [= <-]. rewrite Hself. split; [done|]. split; [done|]. by right.
  - intros [= <-]. split; [done|]. split; [done|]. by left.
Qed.

Lemma fileResponse_shape region amiID response st c ami :
  bucket c (fileResponse region amiID response st) !! amiID = Some ami →
  bucket c st !! amiID = Some ami ∨ shape c region amiID ami.
Proof.
  destruct response as [images|]; [|by left]. unfold fileResponse.
  destruct (length images =? 0)%nat.
  - rewrite bucket_put_lookup. case_decide as Hc; [|by left].
    destruct Hc as [<- _]. intros [= <-]. right. by unfold shape.
  - revert st. induction images as [|image images IH]; intros st; [by left|].
    cbn [foldl]. intros H. apply IH in H as [H|H]; [|by right].
    rewrite fileImage_categoryOf in H.
    destruct (categoryOf image) as [c'|] eqn:Hcat; [|by left].
    rewrite bucket_put_lookup in H. case_decide as Hc; [|by left].
    destruct Hc as [-> _]. injection H as <-. right.
    by apply makeAMI_shape.
Qed.

(** X4: at every point of a scan, a record found in a map under an image
    id carries that id, was resolved in the region it names, and has the
    visibility and alias of the branch that fills the map: [Public] and
    [amazon] in the verified map, [Public] and no alias in the unverified
    map, [Unknown] throughout in the unknown map, and in the private map
    either [Private] or [Public] with the alias [self]. *)
Theorem records_match_their_map env st c amiID ami :
  reachable env st →
  bucket c st !! amiID = Some ami →
  (Region ami, amiID) ∈ resolved st ∧ shape c (Region ami) amiID ami.
Proof.
  intros Hreach Hc. pose proof (reachable_Inv _ _ Hreach) as HI.
  destruct (Inv_lookup _ _ _ _ _ HI Hc) as (region & Hin & Hfiled).
  apply fileResponse_shape in Hfiled as [Hinit|Hshape].
  { by rewrite bucket_initial in Hinit. }
  pose proof Hshape as (_ & Hregion & _). by rewrite Hregion.
Qed.

Lemma records_match_their_map_tidy :
  let st := scan tidyAccount ["eu-west-1"; "us-east-1"; "ap-south-1"] in
  let ami :=
    mkAMI "ami-4" "ap-south-1" "amazon" "137112412989" "al2" "" "Public" in
  reachable tidyAccount st ∧
  bucket Verified st !! "ami-4" = Some ami ∧
  ("ap-south-1", "ami-4") ∈ resolved st ∧
  shape Verified "ap-south-1" "ami-4" ami.
Proof.
  intros st ami.
  assert (Hc : bucket Verified st !! "ami-4" = Some ami) by (by vm_compute).
  split; [apply scan_reachable|]. split; [exact Hc|].
  exact (records_match_their_map tidyAccount st Verified "ami-4" ami
           (scan_reachable _ _) Hc).
Defined.

(** ** Records are filed once and for all *)

Lemma analyseAMI_keeps env st region amiID' c amiID ami :
  Inv env st →
  bucket c st !! amiID = Some ami →
  bucket c (analyseAMI env region st amiID') !! amiID = Some ami.
Proof.
  intros HI Hc.
  destruct (index (processedAMIs st) amiID') eqn:Hidx.
  { by rewrite analyseAMI_seen. }
  rewrite analyseAMI_new by done.
  destruct (Inv_lookup _ _ _ _ _ HI Hc) as (r & Hin & _).
  pose proof (resolved_processed _ _ _ _ HI Hin) as Hseen.
  assert (amiID' ≠ amiID) by (intros ->; congruence).
  rewrite fileResponse_other by done. by destruct c.
Qed.

Lemma steps_keep env obs st c amiID ami :
  Inv env st →
  bucket c st !! amiID = Some ami →
  bucket c (foldl (step env) st obs) !! amiID = Some ami.
Proof.
  revert st. induction obs as [|[r a] obs IH]; intros st HI Hc; [done|].
  cbn [foldl]. apply IH.
  - by apply Inv_analyseAMI.
  - by apply analyseAMI_keeps.
Qed.

Lemma steps_Inv env obs st : Inv env st → Inv env (foldl (step env) st obs).
Proof.
  apply foldl_preserves. intros s [r a] Hs. by apply Inv_analyseAMI.
Qed.

Lemma scan_app env regions1 regions2 :
  scan env (regions1 ++ regions2) =
    addInstances (sum_list (map (listed env) regions2))
      (foldl (step env) (scan env regions1) (observations env regions2)).
Proof. unfold scan. by rewrite foldl_app, scanRegions_flat. Qed.

(** X5: a record is never replaced or removed once it is filed: whatever
    regions the scan goes on to, the maps it has reached keep their
    records, and the processed ids stay processed. *)
Theorem records_never_change env regions more c amiID ami :
  bucket c (scan env regions) !! amiID = Some ami →
  bucket c (scan env (regions ++ more)) !! amiID = Some ami ∧
  index (processedAMIs (scan env (regions ++ more))) amiID = true.
Proof.
  intros Hc. rewrite scan_app, bucket_addInstances.
  pose proof (scan_Inv env regions) as HI.
  assert (Hkept : bucket c (foldl (step env) (scan env regions)
                              (observations env more)) !! amiID = Some ami)
    by (by apply steps_keep).
  split; [exact Hkept|].
  pose proof (steps_Inv env (observations env more) _ HI) as HI'.
  destruct (Inv_lookup _ _ _ _ _ HI' Hkept) as (r & Hin & _).
  by apply (resolved_processed _ _ _ _ HI' Hin).
Qed.

Lemma records_never_change_tidy :
  let ami :=
    mkAMI "ami-1" "eu-west-1" "amazon" "137112412989" "al2023"
          "Amazon Linux" "Public" in
  bucket Verified (scan tidyAccount ["eu-west-1"]) !! "ami-1" = Some ami ∧
  bucket Verified (scan tidyAccount (["eu-west-1"] ++ ["ap-south-1"]))
    !! "ami-1" = Some ami.
Proof.
  intros ami.
  assert (Hc : bucket Verified (scan tidyAccount ["eu-west-1"]) !! "ami-1"
               = Some ami) by (by vm_compute).
  split; [exact Hc|].
  exact (proj1 (records_never_change tidyAccount ["eu-west-1"]
                  ["ap-south-1"] Verified "ami-1" ami Hc)).
Defined.

(** ** The two totals of the summary *)

Lemma collectInstanceIDs_flat reservations :
  collectInstanceIDs reservations =
    flat_map (fun reservation => map InstanceId (Instances reservation))
             reservations.
Proof.
  unfold collectInstanceIDs.
  assert (Hinner : ∀ instances (ids : list string),
            foldl (fun (ids : list string) instance =>
                     (ids ++ [InstanceId instance])%list) ids instances
            = (ids ++ map InstanceId instances)%list).
  { induction instances as [|i l IH]; intros ids; cbn [foldl map].
    - by rewrite app_nil_r.
    - by rewrite IH, <- app_assoc. }
  assert (Houter : ∀ rs (ids : list string),
            foldl (fun (ids : list string) reservation =>
                     foldl (fun (ids : list string) instance =>
                              (ids ++ [InstanceId instance])%list)
                           ids (Instances reservation)) ids rs
            = (ids ++ flat_map (fun reservation =>
                                  map InstanceId (Instances reservation)) rs)%list).
  { induction rs as [|r rs IH]; intros ids; cbn [foldl flat_map].
    - by rewrite app_nil_r.
    - by rewrite IH, Hinner, <- app_assoc. }
  apply (Houter reservations []).
Qed.

Lemma length_flat_map_map {A B C} (f : A -> list B) (g : B -> C) (l : list A) :
  length (flat_map (fun a => map g (f a)) l) = length (flat_map f l).
Proof.
  induction l as [|a l IH]; [done|]. cbn [flat_map].
  by rewrite !length_app, length_map, IH.
Qed.

Lemma scan_total_listed env regions :
  totalInstances (scan env regions) = sum_list (map (listed env) regions).
Proof.
  rewrite scan_flat. cbn [totalInstances addInstances].
  rewrite steps_total. cbn [totalInstances initial]. apply Nat.add_0_l.
Qed.

(** X6: the instance total of the summary is the number of instances in
    the listings of the regions that could be listed; it does not depend
    on the instance detail calls or on the image lookups, so an instance
    whose detail call fails is counted all the same. *)
Theorem instance_total_counts_listings env regions :
  totalInstances (scan env regions) =
    sum_list (map (fun region =>
                     match DescribeInstances env region [] with
                     | Some reservations =>
                         length (flat_map Instances reservations)
                     | None => 0
                     end) regions).
Proof.
  rewrite scan_total_listed. f_equal.
  apply map_ext. intros region. unfold listed.
  destruct (DescribeInstances env region []) as [rs|]; [|done].
  by rewrite collectInstanceIDs_flat, length_flat_map_map.
Qed.

Lemma steps_processed_dom env obs st :
  Inv env st →
  dom (processedAMIs (foldl (step env) st obs)) =
    dom (processedAMIs st) ∪ list_to_set obs.*2.
Proof.
  revert st. induction obs as [|[r a] obs IH]; intros st HI.
  - cbn [foldl fmap list_fmap list_to_set]. by rewrite (right_id_L ∅ (∪)).
  - change (foldl (step env) st ((r, a) :: obs))
      with (foldl (step env) (analyseAMI env r st a) obs).
    rewrite (IH _ (Inv_analyseAMI env st r a HI)).
    cbn [fst snd fmap list_fmap list_to_set].
    destruct (index (processedAMIs st) a) eqn:Hidx.
    + rewrite analyseAMI_seen by done.
      assert (Ha : a ∈ dom (processedAMIs st)).
      { apply elem_of_dom. unfold index in Hidx.
        by destruct (processedAMIs st !! a). }
      apply set_eq. intros x. rewrite !elem_of_union, elem_of_singleton.
      split; [tauto|]. intros [Hx|[->|Hx]]; tauto.
    + rewrite analyseAMI_new by done.
      destruct (fileResponse_fields r a (DescribeImages env r [a])
                  (logResolve r a (markProcessed a st))) as (-> & _ & _).
      cbn [processedAMIs logResolve markProcessed].
      rewrite dom_insert_L. apply set_eq. intros x.
      rewrite !elem_of_union, elem_of_singleton. tauto.
Qed.

Lemma scan_processed_dom env regions :
  dom (processedAMIs (scan env regions))
  = list_to_set (flat_map (observed env) regions).
Proof.
  rewrite scan_flat. cbn [processedAMIs addInstances].
  rewrite (steps_processed_dom env _ initial (Inv_initial env)).
  rewrite observations_snd. cbn [processedAMIs initial].
  rewrite dom_empty_L. by rewrite (left_id_L ∅ (∪)).
Qed.

Lemma processed_iff_observed env regions amiID :
  index (processedAMIs (scan env regions)) amiID = true ↔
  ∃ region, region ∈ regions ∧ amiID ∈ observed env region.
Proof.
  pose proof (scan_Inv env regions) as HI.
  rewrite (index_true_resolved _ _ _ HI).
  assert (Hin : amiID ∈ (resolved (scan env regions)).*2 ↔
                amiID ∈ dom (processedAMIs (scan env regions))).
  { rewrite elem_of_dom, (inv_processed _ _ HI).
    case_decide; [naive_solver|].
    split; [done|]. by intros [? ?]. }
  rewrite Hin, scan_processed_dom, elem_of_list_to_set, list_elem_of_In,
    in_flat_map.
  split; intros (region & Hr & Ha); exists region;
    by rewrite ?list_elem_of_In in *.
Qed.

(** X7: the image total of the summary counts the distinct image ids met
    in the instance details of the scanned regions: an id is marked as
    processed exactly when some region met it, whether or not its lookup
    succeeded and whether or not it was filed in a map. *)
Theorem image_total_counts_observed env regions :
  let st := scan env regions in
  dom (processedAMIs st) = list_to_set (flat_map (observed env) regions) ∧
  TotalAMIs (summary st) =
    size (list_to_set (flat_map (observed env) regions) : gset string) ∧
  ∀ amiID,
    index (processedAMIs st) amiID = true ↔
    ∃ region, region ∈ regions ∧ amiID ∈ observed env region.
Proof.
  intros st. split; [apply scan_processed_dom|]. split.
  - unfold summary. cbn [TotalAMIs].
    by rewrite <- (scan_processed_dom env regions), size_dom.
  - intros amiID. apply processed_iff_observed.
Qed.

Lemma steps_seen env obs st :
  (∀ o, o ∈ obs → index (processedAMIs st) (snd o) = true) →
  foldl (step env) st obs = st.
Proof.
  induction obs as [|[r a] obs IH]; intros Hseen; [done|].
  cbn [foldl]. unfold step at 2. cbn [fst snd].
  rewrite analyseAMI_seen.
  - apply IH. intros o Ho. apply Hseen. by right.
  - apply (Hseen (r, a)). by left.
Qed.

(** X8: scanning again a region that the scan already went through adds
    its instances to the instance total and changes nothing else: every
    image id it meets is skipped as already processed. *)
Theorem rescanned_region_adds_only_instances env regions region :
  region ∈ regions →
  scan env (regions ++ [region]) =
    addInstances (listed env region) (scan env regions).
Proof.
  intros Hregion. rewrite scan_app. cbn [map sum_list].
  unfold observations. cbn [flat_map]. rewrite app_nil_r.
  change (sum_list_with id [listed env region])
    with (listed env region + 0)%nat.
  rewrite Nat.add_0_r. f_equal.
  apply steps_seen. intros [r a] Ho.
  apply list_elem_of_fmap in Ho as (a' & [= -> ->] & Ha). cbn [snd].
  apply (processed_iff_observed env regions). by exists region.
Qed.

Lemma rescanned_region_adds_only_instances_tidy :
  "eu-west-1" ∈ ["eu-west-1"; "ap-south-1"] ∧
  listed tidyAccount "eu-west-1" = 2%nat ∧
  scan tidyAccount (["eu-west-1"; "ap-south-1"] ++ ["eu-west-1"]) =
    addInstances 2 (scan tidyAccount ["eu-west-1"; "ap-south-1"]).
Proof.
  assert (Hin : "eu-west-1" ∈ ["eu-west-1"; "ap-south-1"]).
  { apply (bool_decide_unpack _). by vm_compute. }
  split; [exact Hin|]. split; [reflexivity|].
  exact (rescanned_region_adds_only_instances tidyAccount
           ["eu-west-1"; "ap-south-1"] "eu-west-1" Hin).
Defined.

(** X9: at every point of a scan no map holds more records than there are
    processed image ids, so none of the four category counts of the
    summary exceeds its image total. *)
Theorem category_count_bounded env st c :
  reachable env st →
  (size (bucket c st) ≤ size (processedAMIs st))%nat.
Proof.
  intros Hreach. pose proof (reachable_Inv _ _ Hreach) as HI.
  rewrite <- (size_dom (bucket c st)), <- (size_dom (processedAMIs st)).
  apply subseteq_size. intros amiID Hin.
  apply elem_of_dom in Hin as [ami Hc].
  destruct (Inv_lookup _ _ _ _ _ HI Hc) as (region & Hres & _).
  apply elem_of_dom. rewrite (inv_processed _ _ HI).
  rewrite decide_True; [done|]. apply list_elem_of_fmap.
  by exists (region, amiID).
Qed.

Lemma category_count_bounded_tidy :
  let st := scan tidyAccount ["eu-west-1"; "us-east-1"; "ap-south-1"] in
  reachable tidyAccount st ∧
  (size (bucket Verified st) ≤ size (processedAMIs st))%nat.
Proof.
  intros st. split; [apply scan_reachable|].
  exact (category_count_bounded tidyAccount st Verified (scan_reachable _ _)).
Defined.

(** X10: regions that cannot be listed or that list no instance leave no
    trace: a scan over such regions only ends in the initial state, with
    a summary of six zeros. *)
Theorem idle_regions_leave_no_trace env regions :
  Forall (fun region => listed env region = 0%nat) regions →
  scan env regions = initial ∧ summary (scan env regions) = mkSummary 0 0 0 0 0 0.
Proof.
  intros Hidle.
  assert (Hscan : scan env regions = initial).
  { unfold scan. generalize initial. induction Hidle as [|r rs Hr _ IH];
      intros st; [done|].
    cbn [foldl]. rewrite IH. unfold scanRegion, listed in *.
    destruct (DescribeInstances env r []) as [reservations|]; [|done].
    rewrite Hr. cbn [Nat.eqb]. apply addInstances_0. }
  split; [exact Hscan|]. by rewrite Hscan.
Qed.

Lemma idle_regions_leave_no_trace_tidy :
  Forall (fun region => listed tidyAccount region = 0%nat)
         ["us-east-1"; "sa-east-1"] ∧
  summary (scan tidyAccount ["us-east-1"; "sa-east-1"])
  = mkSummary 0 0 0 0 0 0.
Proof.
  assert (H : Forall (fun region => listed tidyAccount region = 0%nat)
                     ["us-east-1"; "sa-east-1"]).
  { repeat constructor. }
  split; [exact H|].
  exact (proj2 (idle_regions_leave_no_trace tidyAccount _ H)).
Defined.

(** ** Rows of the report *)

Lemma ranges_length m visit : ranges m visit → length visit = size m.
Proof.
  unfold ranges. intros ->. apply length_map_to_list.
Qed.

(** X11: whatever order the maps are visited in, the export writes the
    header first and then one row per record of the four maps: the number
    of rows is the sum of the four category counts of the summary. *)
Theorem report_has_one_row_per_record st chunks :
  reportChunks st chunks →
  ∃ rows,
    chunks = header :: rows ∧
    length rows =
      (VerifiedAMIs (summary st) + PrivateAMIs (summary st)
       + UnknownAMIs (summary st) + UnverifiedAMIs (summary st))%nat.
Proof.
  intros (v & p & k & u & Hv & Hp & Hk & Hu & ->).
  unfold writeReport. eexists. split; [reflexivity|].
  rewrite !length_app, !length_map.
  rewrite (ranges_length _ _ Hv), (ranges_length _ _ Hp),
    (ranges_length _ _ Hk), (ranges_length _ _ Hu).
  unfold summary. cbn. lia.
Qed.

Lemma report_has_one_row_per_record_tidy :
  let st := scan tidyAccount ["eu-west-1"; "us-east-1"; "ap-south-1"] in
  let entries c := map_to_list (bucket c st) in
  let chunks :=
    writeReport (entries Verified) (entries Private) (entries Unknown)
                (entries Unverified) in
  reportChunks st chunks ∧
  ∃ rows, chunks = header :: rows ∧ length rows = (2 + 1 + 1 + 1)%nat.
Proof.
  intros st entries chunks.
  assert (H : reportChunks st chunks).
  { apply reportChunks_writeReport; apply ranges_map_to_list. }
  split; [exact H|].
  destruct (report_has_one_row_per_record st chunks H) as (rows & Hrows & Hlen).
  exists rows. split; [exact Hrows|].
  rewrite Hlen. by vm_compute.
Defined.

Lemma ranges_elem m visit amiID ami :
  ranges m visit → (amiID, ami) ∈ visit ↔ m !! amiID = Some ami.
Proof.
  unfold ranges. intros ->. apply elem_of_map_to_list.
Qed.

Lemma rows_elem c m visit chunk :
  ranges m visit →
  chunk ∈ map (fun kv => row c (snd kv)) visit ↔
  ∃ amiID ami, m !! amiID = Some ami ∧ chunk = row c ami.
Proof.
  intros Hvisit. rewrite list_elem_of_In, in_map_iff. split.
  - intros ([amiID ami] & <- & Hin). exists amiID, ami. split; [|done].
    apply (ranges_elem _ _ _ _ Hvisit). by apply list_elem_of_In.
  - intros (amiID & ami & Hm & ->). exists (amiID, ami). split; [done|].
    apply list_elem_of_In. by apply (ranges_elem _ _ _ _ Hvisit).
Qed.

(** X12: the rows of an export are exactly the rows of the records held
    by the four maps, each written with the format of its map: no record
    is left out and nothing else is written besides the header. *)
Theorem report_rows_are_the_records st chunks chunk :
  reportChunks st chunks →
  chunk ∈ chunks ↔
  chunk = header ∨
  ∃ c amiID ami, bucket c st !! amiID = Some ami ∧ chunk = row c ami.
Proof.
  intros (v & p & k & u & Hv & Hp & Hk & Hu & ->).
  unfold writeReport.
  rewrite elem_of_cons, !elem_of_app.
  rewrite (rows_elem Verified _ _ _ Hv), (rows_elem Private _ _ _ Hp),
    (rows_elem Unknown _ _ _ Hk), (rows_elem Unverified _ _ _ Hu).
  split.
  - intros [->|[(a & r & H & ->)|[(a & r & H & ->)|[(a & r & H & ->)
                |(a & r & H & ->)]]]]; [by left|right..].
    + by exists Verified, a, r.
    + by exists Private, a, r.
    + by exists Unknown, a, r.
    + by exists Unverified, a, r.
  - intros [->|(c & a & r & H & ->)]; [by left|right].
    destruct c; cbn [bucket] in H; eauto 8.
Qed.

Lemma report_rows_are_the_records_tidy :
  let st := scan tidyAccount ["eu-west-1"; "us-east-1"; "ap-south-1"] in
  let entries c := map_to_list (bucket c st) in
  let chunks :=
    writeReport (entries Verified) (entries Private) (entries Unknown)
                (entries Unverified) in
  reportChunks st chunks ∧
  "ami-2|eu-west-1|Unverified|Public||999999999999|ubuntu|" ++ nl ∈ chunks.
Proof.
  intros st entries chunks.
  assert (H : reportChunks st chunks).
  { apply reportChunks_writeReport; apply ranges_map_to_list. }
  split; [exact H|].
  apply (report_rows_are_the_records st chunks _ H). right.
  exists Unverified, "ami-2",
    (mkAMI "ami-2" "eu-west-1" "" "999999999999" "ubuntu" "" "Public").
  split; [by vm_compute|reflexivity].
Defined.

Lemma columns_whole s : contains "|" s = false → columns s = [s].
Proof.
  unfold columns. induction s as [|c s IH]; [done|]. simpl.
  rewrite orb_false_iff. intros [Hc Hs]. by rewrite Hc, (IH Hs).
Qed.

(** X13: a row of the verified, private or unverified map reads back as
    the eight fields it was written from, in the order of the header,
    provided none of the fields holds a [|]. *)
Theorem detail_line_reads_back status ami :
  contains "|" (ID ami) = false → contains "|" (Region ami) = false →
  contains "|" status = false → contains "|" (Public ami) = false →
  contains "|" (OwnerAlias ami) = false → contains "|" (OwnerID ami) = false →
  contains "|" (Name ami) = false → contains "|" (Description ami) = false →
  columns (detailLine status ami) =
    [ID ami; Region ami; status; Public ami; OwnerAlias ami; OwnerID ami;
     Name ami; Description ami].
Proof.
  intros H1 H2 H3 H4 H5 H6 H7 H8. unfold detailLine.
  rewrite (columns_app _ _ H1), (columns_app _ _ H2), (columns_app _ _ H3),
    (columns_app _ _ H4), (columns_app _ _ H5), (columns_app _ _ H6),
    (columns_app _ _ H7), (columns_whole _ H8).
  done.
Qed.

Lemma detail_line_reads_back_tidy :
  let ami :=
    mkAMI "ami-1" "eu-west-1" "amazon" "137112412989" "al2023"
          "Amazon Linux" "Public" in
  columns (line Verified ami) =
    ["ami-1"; "eu-west-1"; "Verified"; "Public"; "amazon"; "137112412989";
     "al2023"; "Amazon Linux"].
Proof.
  intros ami.
  exact (detail_line_reads_back "Verified" ami eq_refl eq_refl eq_refl
           eq_refl eq_refl eq_refl eq_refl eq_refl).
Defined.

Lemma splitOn_length s : length (splitOn "|" s) = S (pipes s).
Proof.
  induction s as [|c s IH]; [done|]. cbn [splitOn pipes].
  destruct (Ascii.eqb c "|").
  - cbn [length]. by rewrite IH.
  - destruct (splitOn "|" s) as [|field fields]; [done|].
    cbn [length] in *. lia.
Qed.

Lemma pipes_app s t : pipes (s ++ t) = (pipes s + pipes t)%nat.
Proof.
  induction s as [|c s IH]; [done|]. simpl. rewrite IH. lia.
Qed.

(** X14: the export escapes nothing: a row of the verified, private or
    unverified map has eight columns plus one for every [|] that occurs
    in its fields, so a [|] in a name or description shifts the columns
    that follow it. *)
Theorem detail_line_column_count status ami :
  length (columns (detailLine status ami)) =
    (8 + pipes (ID ami) + pipes (Region ami) + pipes status
     + pipes (Public ami) + pipes (OwnerAlias ami) + pipes (OwnerID ami)
     + pipes (Name ami) + pipes (Description ami))%nat.
Proof.
  unfold columns, detailLine. rewrite splitOn_length.
  rewrite !pipes_app. cbn [pipes Ascii.eqb]. simpl. lia.
Qed.

(** ** The run as a whole *)

(** X16: when the report cannot be created the run ends with exit code 1,
    but only after the scan is done and its summary printed; no file is
    written and no path is echoed. *)
Theorem export_failure_keeps_summary h env flags regions :
  LoadDefaultConfig h (flagProfile flags) = true →
  GetCallerIdentity h = true →
  fetchRegions env (flagRegion flags) = Some regions →
  flagOutput flags ≠ "" →
  Create h (flagOutput flags) = false →
  let outcome := main h env flags in
  exitCode outcome = 1%nat ∧
  printed outcome = Some (summary (scan env regions)) ∧
  created outcome = None ∧ echoed outcome = None.
Proof.
  intros Hcfg Hid Hregions Hout Hcreate. unfold main, run.
  rewrite Hcfg, Hid, Hregions. cbn [negb].
  destruct (flagOutput flags) as [|first rest]; [done|].
  by rewrite Hcreate.
Qed.

Lemma export_failure_keeps_summary_tidy :
  let flags := mkFlags "" "" false "out/report.csv" in
  let outcome := main fullDiskHost tidyAccount flags in
  Create fullDiskHost "out/report.csv" = false ∧
  exitCode outcome = 1%nat ∧
  printed outcome = Some (mkSummary 6 5 1 2 1 1) ∧
  created outcome = None.
Proof.
  intros flags outcome. split; [reflexivity|].
  assert (Hout : flagOutput flags ≠ "") by done.
  destruct (export_failure_keeps_summary fullDiskHost tidyAccount flags
              ["eu-west-1"; "us-east-1"; "ap-south-1"]
              eq_refl eq_refl eq_refl Hout eq_refl) as (H1 & H2 & H3 & _).
  split; [exact H1|]. split; [|exact H3].
  etransitivity; [exact H2|]. by vm_compute.
Defined.

(** X17: [PreparePath] runs before the session is loaded, so a run that
    aborts on its configuration, its credentials or its region list has
    already created the directory of the report it never writes, and
    prints no summary. *)
Theorem aborted_run_leaves_directory h env flags fullPath :
  flagOutput flags ≠ "" →
  PreparePath h (flagOutput flags) = PathOk fullPath →
  LoadDefaultConfig h (flagProfile flags) = false ∨
  GetCallerIdentity h = false ∨
  fetchRegions env (flagRegion flags) = None →
  let outcome := main h env flags in
  exitCode outcome = 1%nat ∧ printed outcome = None ∧
  created outcome = None ∧
  preparedDir outcome = Some (Dir h fullPath) ∧
  MkdirAll h (Dir h fullPath) = true.
Proof.
  intros Hout Hpath Hfail.
  assert (Hdir : prepare h (flagOutput flags) = Some (Dir h fullPath)).
  { unfold prepare. rewrite Hpath.
    destruct (String.eqb_spec (flagOutput flags) ""); done. }
  assert (Hmk : MkdirAll h (Dir h fullPath) = true).
  { unfold PreparePath in Hpath.
    destruct (if IsAbs h (flagOutput flags) then _ else _) as [p|e];
      [|done].
    destruct (MkdirAll h (Dir h p)) eqn:Hm; [|done].
    by injection Hpath as <-. }
  unfold main, run. rewrite Hdir.
  destruct Hfail as [Hcfg|[Hid|Hregions]].
  - by rewrite Hcfg.
  - rewrite Hid. by destruct (LoadDefaultConfig h (flagProfile flags)).
  - rewrite Hregions.
    by destruct (LoadDefaultConfig h (flagProfile flags)),
      (GetCallerIdentity h).
Qed.

Lemma aborted_run_leaves_directory_tidy :
  let flags := mkFlags "" "" false "out/report.csv" in
  let outcome := main anonymousHost tidyAccount flags in
  PreparePath anonymousHost "out/report.csv"
  = PathOk "/home/audit/out/report.csv" ∧
  GetCallerIdentity anonymousHost = false ∧
  exitCode outcome = 1%nat ∧ printed outcome = None ∧
  preparedDir outcome = Some "/home/audit/out".
Proof.
  intros flags outcome. split; [reflexivity|]. split; [reflexivity|].
  assert (Hout : flagOutput flags ≠ "") by done.
  destruct (aborted_run_leaves_directory anonymousHost tidyAccount flags
              "/home/audit/out/report.csv" Hout eq_refl
              (or_intror (or_introl eq_refl))) as (H1 & H2 & _ & H4 & _).
  split; [exact H1|]. split; [exact H2|exact H4].
Defined.

(** ** [PreparePath] *)

(** X18: on a host whose [Abs] and [Getwd] return absolute paths and
    whose [Join] keeps a path absolute, a path returned by [PreparePath]
    is absolute and its directory has been created; a path that was
    absolute to begin with is returned as it is. *)
Theorem PreparePath_absolute h outputPath fullPath :
  (∀ path absPath, Abs h path = Some absPath → IsAbs h absPath = true) →
  (∀ cwd, Getwd h = Some cwd → IsAbs h cwd = true) →
  (∀ dir name, IsAbs h dir = true → IsAbs h (Join h dir name) = true) →
  PreparePath h outputPath = PathOk fullPath →
  IsAbs h fullPath = true ∧
  MkdirAll h (Dir h fullPath) = true ∧
  (IsAbs h outputPath = true → fullPath = outputPath).
Proof.
  intros HAbs HGetwd HJoin. unfold PreparePath.
  destruct (IsAbs h outputPath) eqn:Habs.
  - destruct (MkdirAll h (Dir h outputPath)) eqn:Hmk; [|done].
    intros [= <-]. done.
  - destruct (contains (PathSeparator h) outputPath).
    + destruct (Abs h outputPath) as [absPath|] eqn:HA; [|done].
      destruct (MkdirAll h (Dir h absPath)) eqn:Hmk; [|done].
      intros [= <-]. split; [by apply (HAbs outputPath)|]. done.
    + destruct (Getwd h) as [cwd|] eqn:HG; [|done].
      destruct (MkdirAll h (Dir h (Join h cwd outputPath))) eqn:Hmk; [|done].
      intros [= <-]. split; [by apply HJoin, HGetwd|]. done.
Qed.

Lemma PreparePath_absolute_unix :
  PreparePath unixHost "report.csv" = PathOk "/home/audit/report.csv" ∧
  IsAbs unixHost "/home/audit/report.csv" = true ∧
  MkdirAll unixHost (Dir unixHost "/home/audit/report.csv") = true.
Proof.
  split; [reflexivity|].
  destruct (PreparePath_absolute unixHost "report.csv"
              "/home/audit/report.csv") as (H1 & H2 & _).
  - intros path absPath [= <-]. reflexivity.
  - intros cwd [= <-]. reflexivity.
  - intros [|c dir] name Hdir; [done|]. exact Hdir.
  - reflexivity.
  - split; [exact H1|exact H2].
Defined.

(** ** The order of the regions *)

Lemma sum_list_map_Permutation {A} (f : A -> nat) (l1 l2 : list A) :
  l1 ≡ₚ l2 → sum_list (map f l1) = sum_list (map f l2).
Proof.
  induction 1 as [|x l1 l2 _ IH|x y l|l1 l2 l3 _ IH1 _ IH2]; cbn.
  - done.
  - by rewrite IH.
  - unfold id. lia.
  - by rewrite IH1.
Qed.

(** X19: the two totals of the summary do not depend on the order in
    which the regions are scanned: the same regions in another order give
    the same instance total and the same image total. *)
Theorem totals_independent_of_region_order env regions1 regions2 :
  regions1 ≡ₚ regions2 →
  TotalInstances (summary (scan env regions1))
  = TotalInstances (summary (scan env regions2)) ∧
  TotalAMIs (summary (scan env regions1))
  = TotalAMIs (summary (scan env regions2)).
Proof.
  intros Hperm. unfold summary. cbn [TotalInstances TotalAMIs]. split.
  - rewrite !scan_total_listed. by apply sum_list_map_Permutation.
  - rewrite <- !size_dom. f_equal. apply set_eq. intros amiID.
    rewrite !elem_of_dom.
    pose proof (scan_Inv env regions1) as HI1.
    pose proof (scan_Inv env regions2) as HI2.
    assert (Hidx : ∀ regions, Inv env (scan env regions) →
              is_Some (processedAMIs (scan env regions) !! amiID) ↔
              index (processedAMIs (scan env regions)) amiID = true).
    { intros regions HI. unfold index. rewrite (inv_processed _ _ HI).
      case_decide; [split; eauto|]. split; [by intros [? ?]|done]. }
    rewrite (Hidx _ HI1), (Hidx _ HI2), !processed_iff_observed.
    split; intros (region & Hr & Ha); exists region; split; try done.
    + by rewrite <- Hperm.
    + by rewrite Hperm.
Qed.

Lemma totals_independent_of_region_order_tidy :
  ["eu-west-1"; "ap-south-1"] ≡ₚ ["ap-south-1"; "eu-west-1"] ∧
  TotalInstances (summary (scan tidyAccount ["eu-west-1"; "ap-south-1"]))
  = TotalInstances (summary (scan tidyAccount ["ap-south-1"; "eu-west-1"])) ∧
  TotalAMIs (summary (scan tidyAccount ["eu-west-1"; "ap-south-1"]))
  = TotalAMIs (summary (scan tidyAccount ["ap-south-1"; "eu-west-1"])).
Proof.
  assert (H : ["eu-west-1"; "ap-south-1"] ≡ₚ ["ap-south-1"; "eu-west-1"])
    by apply perm_swap.
  split; [exact H|].
  exact (totals_independent_of_region_order tidyAccount _ _ H).
Defined.
